(** * A shallow embedding of automat's typical state machines

    This development models [src/automat/_typical.py]: the automatic
    parameter resolver [_magicValueForParameter], the state builder
    [_buildNewState], the state-cluster update [_updateState], the input
    dispatch [_bindableInputMethod], machine construction
    [_TypicalClass.__call__] and the table construction of
    [TypicalBuilder.buildClass].

    Python objects are modelled by a heap of references: a state object
    is a reference [nat] into [m_heap], so object identity is reference
    equality and an object evicted from the cluster stays reachable from
    the local variables that still hold it. *)

From stdpp Require Import base gmap strings list.

(* ------------------------------------------------------------------ *)
(** ** Python values, types and signatures *)

(** A Python class object: its identity and its [__name__].  Class
    comparison with [==] and [is] is identity, i.e. equality of the
    whole record. *)
Record ty := Ty { ty_id : nat; ty_name : string }.

#[global] Instance ty_eq_dec : EqDecision ty.
Proof. solve_decision. Defined.

(** [inspect.Parameter.empty], the annotation of an unannotated parameter. *)
Definition ty_empty : ty := Ty 0 "_empty".

(** Runtime values: [None], plain data, references to heap objects, the
    state core and the synthetic machine instance ([syntheticSelf]). *)
Inductive val :=
| VNone
| VInt (z : Z)
| VStr (s : string)
| VRef (r : nat)
| VCore
| VSelf.

#[global] Instance val_eq_dec : EqDecision val.
Proof. solve_decision. Defined.

(** A parameter of an [inspect.Signature]: name, evaluated annotation,
    and whether it has a default value. *)
Record param := Param { p_name : string; p_ann : ty; p_has_default : bool }.

(** The exceptions raised along the modelled paths. *)
Inductive exn :=
| CouldNotFindAutoParam (msg : string)
| KeyError (key : string)
| TypeError
| RuntimeError (msg : string)
| ValueError (msg : string)
| IndexError.

#[global] Instance exn_eq_dec : EqDecision exn.
Proof. solve_decision. Defined.

(** The state core: its class and its attributes ([getattr]). *)
Record core := Core { core_ty : ty; core_attrs : gmap string val }.

(** [getattr(stateCore, name, None)] *)
Definition getattr_default (c : core) (name : string) : val :=
  match core_attrs c !! name with
  | Some v => v
  | None => VNone
  end.

(** [name in signature.parameters] / [signature.parameters[name]] *)
Fixpoint find_param (name : string) (sig : list param) : option param :=
  match sig with
  | [] => None
  | p :: sig' => if decide (p_name p = name) then Some p else find_param name sig'
  end.

(** Lookup in an ordered dictionary kept as an association list. *)
Fixpoint assoc (k : string) (l : list (string * val)) : option val :=
  match l with
  | [] => None
  | (k', v) :: l' => if decide (k' = k) then Some v else assoc k l'
  end.

Definition assoc_remove (k : string) (l : list (string * val)) : list (string * val) :=
  filter (fun kv => kv.1 ≠ k) l.

(** [Signature.bind( *args, **kwargs).arguments] for positional-or-keyword
    parameters: positional values first, then keywords in parameter
    order; parameters with a default that receive no value are left out
    of [arguments]; missing required values and leftover values raise
    [TypeError]. *)
Fixpoint bind_params (sig : list param) (pos : list val) (kw : list (string * val))
  : exn + list (string * val) :=
  match sig with
  | [] =>
      match pos, kw with
      | [], [] => inr []
      | _, _ => inl TypeError
      end
  | p :: sig' =>
      match pos with
      | v :: pos' =>
          match assoc (p_name p) kw with
          | Some _ => inl TypeError
          | None =>
              match bind_params sig' pos' kw with
              | inr l => inr ((p_name p, v) :: l)
              | inl e => inl e
              end
          end
      | [] =>
          match assoc (p_name p) kw with
          | Some v =>
              match bind_params sig' [] (assoc_remove (p_name p) kw) with
              | inr l => inr ((p_name p, v) :: l)
              | inl e => inl e
              end
          | None =>
              if p_has_default p then bind_params sig' [] kw else inl TypeError
          end
      end
  end.

(* ------------------------------------------------------------------ *)
(** ** [_magicValueForParameter] *)

Definition couldNotFindMsg (parameterName : string) : string :=
  String.append "Could not find parameter "
    (String.append parameterName " anywhere.").

Definition _magicValueForParameter
    (parameterName : string) (parameterType : ty)
    (transitionSignature : option (list param))
    (passedParams : list (string * val))
    (stateCore : core)
    (existingStateCluster : gmap string nat)
    (inputProtocols : list ty) : exn + val :=
  let fallThrough :=
    match getattr_default stateCore parameterName with
    | VNone =>
        match existingStateCluster !! ty_name parameterType with
        | Some r => inr (VRef r)
        | None =>
            if decide (parameterType = core_ty stateCore) then inr VCore
            else if decide (parameterType ∈ inputProtocols) then inr VSelf
            else inl (CouldNotFindAutoParam (couldNotFindMsg parameterName))
        end
    | it => inr it
    end in
  match transitionSignature with
  | Some sig =>
      match find_param parameterName sig with
      | Some transitionParam =>
          if decide (p_ann transitionParam = parameterType) then
            match assoc parameterName passedParams with
            | Some v => inr v
            | None => inl (KeyError parameterName)
            end
          else fallThrough
      | None => fallThrough
      end
  | None => fallThrough
  end.

(* ------------------------------------------------------------------ *)
(** ** Machine instances and their state *)

(** A state factory as stored in [_stateFactories]: its [__name__], the
    class it builds, its evaluated signature and its [__persistState__]. *)
Record factory := Factory {
  f_name : string;
  f_cls : ty;
  f_params : list param;
  f_persist : bool
}.

(** A method of an inputs protocol: its name and its signature, the
    [self] parameter included. *)
Record inputDecl := InputDecl { in_name : string; in_sig : list param }.

(** A heap object built by a state factory: its class and the keyword
    arguments it was constructed with. *)
Record obj := Obj { o_cls : ty; o_args : list (string * val) }.

(** Observable steps of a dispatch, in the order they happen.
    [EvBuild n r c]: the state factory named [n] was called and returned
    the new object [r] while the state cluster was [c].  [EvEvict s cur]:
    the cluster entry of [s] was deleted while the cursor was on [cur].
    [EvOutput r out]: output [out] was called on [r]. *)
Inductive event :=
| EvBuild (factoryName : string) (r : nat) (visible : gmap string nat)
| EvEvict (s : string) (current : string)
| EvOutput (r : nat) (out : string).

(** A [_TypicalInstance]: the state core, the transitioner's cursor
    [_transitioner._state], the state cluster, and the heap of objects
    with its next free reference; [m_log] records the events. *)
Record machine := Machine {
  m_core : core;
  m_state : string;
  m_cluster : gmap string nat;
  m_heap : gmap nat obj;
  m_next : nat;
  m_log : list event
}.

(** A state-and-exception monad: an exception keeps every mutation made
    before it was raised, as Python does. *)
Definition M (A : Type) : Type := machine -> machine * (exn + A).

#[global] Instance M_ret : MRet M := fun A x m => (m, inr x).
#[global] Instance M_bind : MBind M := fun A B f c m =>
  match c m with
  | (m', inr x) => f x m'
  | (m', inl e) => (m', inl e)
  end.

Definition raise {A} (e : exn) : M A := fun m => (m, inl e).
Definition get : M machine := fun m => (m, inr m).
Definition modify (f : machine -> machine) : M () := fun m => (f m, inr ()).

Definition lift_err {A} (x : exn + A) : M A :=
  match x with inl e => raise e | inr a => mret a end.

Definition set_state (s : string) (m : machine) : machine :=
  Machine (m_core m) s (m_cluster m) (m_heap m) (m_next m) (m_log m).
Definition set_cluster (c : gmap string nat) (m : machine) : machine :=
  Machine (m_core m) (m_state m) c (m_heap m) (m_next m) (m_log m).
Definition add_event (ev : event) (m : machine) : machine :=
  Machine (m_core m) (m_state m) (m_cluster m) (m_heap m) (m_next m) (m_log m ++ [ev]).

(** [d[k]] on a dictionary: [KeyError] when absent. *)
Definition getitem {V} (d : gmap string V) (k : string) : M V :=
  match d !! k with Some v => mret v | None => raise (KeyError k) end.

(* ------------------------------------------------------------------ *)
(** ** The transition table *)

(** Modelled from the spec: the [Automaton] and [Transitioner] of
    [automat._core], which are not under [src/].  The table maps
    (state, input) to the next state and the output name; the catch-all
    registered with [unhandledTransition(errorState, [None])] sends every
    other input to the error state with no output. *)
Record automaton := Automaton {
  au_transitions : list (string * string * string * string);
  au_unhandled : string
}.

Definition outputForInput (au : automaton) (st input : string) : string * option string :=
  match find (fun t => bool_decide (t.1.1.1 = st /\ t.1.1.2 = input)) (au_transitions au) with
  | Some t => (t.1.2, Some t.2)
  | None => (au_unhandled au, None)
  end.

(** Modelled from the spec: [Transitioner.transition(input)] moves the
    cursor to the next state and reports the output. *)
Definition transition (au : automaton) (input : string) : M (option string) :=
  m ← get;
  let '(next, out) := outputForInput au (m_state m) input in
  _ ← modify (set_state next);
  mret out.

(* ------------------------------------------------------------------ *)
(** ** Building state objects and updating the cluster *)

Section Dispatch.

Variable stateFactories : gmap string factory.
Variable theAutomaton : automaton.
Variable inputProtocols : list ty.
(** The user-defined output methods: [getattr(obj, name)( *a, **kw)]. *)
Variable callOutput : gmap nat obj -> nat -> string -> list val -> list (string * val) -> val.

(** [stateFactory( **k)]: allocate the new object. *)
Definition callFactory (stateFactory : factory) (k : list (string * val)) : M nat :=
  fun m =>
    let r := m_next m in
    (Machine (m_core m) (m_state m) (m_cluster m)
       (<[r := Obj (f_cls stateFactory) k]> (m_heap m)) (S r)
       (m_log m ++ [EvBuild (f_name stateFactory) r (m_cluster m)]),
     inr r).

(** The loop of [_buildNewState] over the factory's parameters. *)
Fixpoint resolveParams (ps : list param) (transitionSignature : option (list param))
    (passedParams : list (string * val)) (stateCore : core)
    (existingStateCluster : gmap string nat) : exn + list (string * val) :=
  match ps with
  | [] => inr []
  | extraParam :: ps' =>
      if p_has_default extraParam then
        resolveParams ps' transitionSignature passedParams stateCore existingStateCluster
      else
        match _magicValueForParameter (p_name extraParam) (p_ann extraParam)
                transitionSignature passedParams stateCore existingStateCluster
                inputProtocols with
        | inl e => inl e
        | inr v =>
            match resolveParams ps' transitionSignature passedParams stateCore
                    existingStateCluster with
            | inl e => inl e
            | inr k => inr ((p_name extraParam, v) :: k)
            end
        end
  end.

Definition _buildNewState (transitionMethod : option inputDecl) (stateFactory : factory)
    (args : list val) (kwargs : list (string * val)) : M nat :=
  m ← get;
  let transitionSignature := in_sig <$> transitionMethod in
  passedParams ← lift_err
    (match transitionSignature with
     | None => inr []
     | Some sig => bind_params sig (VCore :: args) kwargs
     end);
  k ← lift_err (resolveParams (f_params stateFactory) transitionSignature passedParams
                  (m_core m) (m_cluster m));
  callFactory stateFactory k.

Definition _updateState (oldState : option string) (args : list val)
    (kwargs : list (string * val)) (inputMethod : option inputDecl) : M (factory * nat) :=
  m ← get;
  let currentState := m_state m in
  stateFactory ← getitem stateFactories currentState;
  stateObject ←
    match m_cluster m !! currentState with
    | Some r => mret r
    | None =>
        r ← _buildNewState inputMethod stateFactory args kwargs;
        _ ← modify (fun m' => set_cluster (<[currentState := r]> (m_cluster m')) m');
        mret r
    end;
  _ ←
    match oldState with
    | None => mret ()
    | Some old =>
        oldStateFactory ← getitem stateFactories old;
        if decide (old ≠ currentState) then
          if f_persist oldStateFactory then mret ()
          else
            m' ← get;
            _ ← getitem (m_cluster m') old;
            modify (fun m'' => add_event (EvEvict old (m_state m'')) (set_cluster (delete old (m_cluster m'')) m''))
        else mret ()
    end;
  mret (stateFactory, stateObject).

Definition unhandledMsg (oldState inputName : string) : string :=
  String.append "unhandled: state:"
    (String.append oldState (String.append " input:" inputName)).

(** The method [_bindableInputMethod] installs for an input. *)
Definition _bindableInputMethod (inputMethod : inputDecl) (a : list val)
    (kw : list (string * val)) : M val :=
  m ← get;
  let oldState := m_state m in
  stateObject ← getitem (m_cluster m) oldState;
  outputMethodName ← transition theAutomaton (in_name inputMethod);
  _ ← _updateState (Some oldState) a kw (Some inputMethod);
  match outputMethodName with
  | None => raise (RuntimeError (unhandledMsg oldState (in_name inputMethod)))
  | Some out =>
      _ ← modify (add_event (EvOutput stateObject out));
      m' ← get;
      mret (callOutput (m_heap m') stateObject out a kw)
  end.

(** [_TypicalClass.__call__]: a fresh instance around the built core,
    with the cursor on the initial state, whose object is built at once. *)
Definition construct (initialState : string) (stateCore : core) : machine * (exn + machine) :=
  let m0 := Machine stateCore initialState ∅ ∅ 0 [] in
  match _updateState None [] [] None m0 with
  | (m, inr _) => (m, inr m)
  | (m, inl e) => (m, inl e)
  end.

End Dispatch.

(** A sequence of input calls on one instance; a call that raises leaves
    the instance as the exception found it, and the next call proceeds. *)
Fixpoint runCalls (stateFactories : gmap string factory) (au : automaton)
    (inputProtocols : list ty)
    (callOutput : gmap nat obj -> nat -> string -> list val -> list (string * val) -> val)
    (calls : list (inputDecl * list val * list (string * val))) (m : machine) : machine :=
  match calls with
  | [] => m
  | (i, a, kw) :: calls' =>
      runCalls stateFactories au inputProtocols callOutput calls'
        (_bindableInputMethod stateFactories au inputProtocols callOutput i a kw m).1
  end.

(* ------------------------------------------------------------------ *)
(** ** [TypicalBuilder.buildClass] *)

(** A class decorated with [@builder.state(persist=...)], with the
    triples [_stateInputs] yields for it: output method name, input name,
    name of the state factory to enter. *)
Record stateDecl := StateDecl {
  sd_cls : ty;
  sd_params : list param;
  sd_persist : bool;
  sd_handlers : list (string * string * string)
}.

(** The parts of a [TypicalBuilder] that [buildClass] reads: the state
    classes in declaration order, the error state, the input names of the
    public protocol followed by those of each private protocol, and the
    [_built] flag. *)
Record builder := Builder {
  b_stateClasses : list stateDecl;
  b_errorState : stateDecl;
  b_protocols : list (list string);
  b_built : bool
}.

(** The state class itself is its own state factory. *)
Definition stateFactoryOf (sd : stateDecl) : factory :=
  Factory (ty_name (sd_cls sd)) (sd_cls sd) (sd_params sd) (sd_persist sd).

(** Modelled from the spec: [Automaton.addTransition] of [automat._core]
    (not under [src/]); a second transition for the same (state, input)
    pair is an ambiguous binding and is rejected with a configuration
    error. *)
Definition addTransition (au : automaton) (inState inputSymbol outState output : string)
  : exn + automaton :=
  if existsb (fun t => bool_decide (t.1.1.1 = inState /\ t.1.1.2 = inputSymbol))
       (au_transitions au)
  then inl (ValueError (String.append "already have transition from "
                          (String.append inState (String.append " via " inputSymbol))))
  else inr (Automaton (au_transitions au ++ [(inState, inputSymbol, outState, output)])
              (au_unhandled au)).

(** The inner loop over [_stateInputs(stateClass)]. *)
Fixpoint addHandlers (stateName : string) (possibleInputs : list string)
    (hs : list (string * string * string)) (au : automaton) : exn + automaton :=
  match hs with
  | [] => inr au
  | (outputName, inputName, newStateName) :: hs' =>
      if decide (inputName ∈ possibleInputs) then
        match addTransition au stateName inputName newStateName outputName with
        | inl e => inl e
        | inr au' => addHandlers stateName possibleInputs hs' au'
        end
      else addHandlers stateName possibleInputs hs' au
  end.

(** The loop over [[*self._stateClasses, self._errorState]]. *)
Fixpoint addStates (possibleInputs : list string) (sds : list stateDecl)
    (au : automaton) (stateFactories : gmap string factory)
  : exn + (automaton * gmap string factory) :=
  match sds with
  | [] => inr (au, stateFactories)
  | stateClass :: sds' =>
      let stateName := ty_name (sd_cls stateClass) in
      let stateFactories' := <[stateName := stateFactoryOf stateClass]> stateFactories in
      match addHandlers stateName possibleInputs (sd_handlers stateClass) au with
      | inl e => inl e
      | inr au' => addStates possibleInputs sds' au' stateFactories'
      end
  end.

(** The loop over [[self._stateProtocol, *self._privateProtocols]]. *)
Fixpoint addProtocols (protocols : list (list string)) (sds : list stateDecl)
    (au : automaton) (stateFactories : gmap string factory)
  : exn + (automaton * gmap string factory) :=
  match protocols with
  | [] => inr (au, stateFactories)
  | possibleInputs :: protocols' =>
      match addStates possibleInputs sds au stateFactories with
      | inl e => inl e
      | inr (au', fs') => addProtocols protocols' sds au' fs'
      end
  end.

(** [buildClass]: the table, the state factories and the initial state
    name of the built [_TypicalClass]; the builder comes back marked as
    built, also when the build raises. *)
Definition buildClass (b : builder)
  : builder * (exn + (automaton * gmap string factory * string)) :=
  if b_built b then
    (b, inl (RuntimeError "You can only build once, after that use the class"))
  else
    let b' := Builder (b_stateClasses b) (b_errorState b) (b_protocols b) true in
    let au0 := Automaton [] (ty_name (sd_cls (b_errorState b))) in
    match addProtocols (b_protocols b) (b_stateClasses b ++ [b_errorState b]) au0 ∅ with
    | inl e => (b', inl e)
    | inr (au, fs) =>
        match b_stateClasses b with
        | [] => (b', inl IndexError)
        | first :: _ => (b', inr (au, fs, ty_name (sd_cls first)))
        end
    end.

(* ------------------------------------------------------------------ *)
(** ** Vocabulary of the specification *)

(** [passedParams] of [_buildNewState]: the call's arguments bound to the
    input's signature, [self] bound to the state core. *)
Definition passedParamsOf (transitionMethod : option inputDecl) (args : list val)
    (kwargs : list (string * val)) : exn + list (string * val) :=
  match in_sig <$> transitionMethod with
  | None => inr []
  | Some sig => bind_params sig (VCore :: args) kwargs
  end.

(** The keyword arguments [_buildNewState] passes to the factory, or the
    exception it raises first. *)
Definition buildArgs (inputProtocols : list ty) (transitionMethod : option inputDecl)
    (stateFactory : factory) (args : list val) (kwargs : list (string * val))
    (m : machine) : exn + list (string * val) :=
  match passedParamsOf transitionMethod args kwargs with
  | inl e => inl e
  | inr passedParams =>
      resolveParams inputProtocols (f_params stateFactory) (in_sig <$> transitionMethod)
        passedParams (m_core m) (m_cluster m)
  end.

(** The allocation [callFactory] performs. *)
Definition allocated (f : factory) (k : list (string * val)) (m : machine) : machine :=
  Machine (m_core m) (m_state m) (m_cluster m)
    (<[m_next m := Obj (f_cls f) k]> (m_heap m)) (S (m_next m))
    (m_log m ++ [EvBuild (f_name f) (m_next m) (m_cluster m)]).

(** The five resolution rules of the spec (section 4.3), each on its own.
    Rule 1 is selected by the triggering input's signature: a parameter
    of the same name whose annotation is the same type.  Its outcome is
    the value the caller bound, or the error of the missing binding. *)
Definition ruleTransition (name : string) (parameterType : ty)
    (transitionSignature : option (list param)) (passedParams : list (string * val))
  : option (exn + val) :=
  match transitionSignature with
  | None => None
  | Some sig =>
      match find_param name sig with
      | Some tp =>
          if decide (p_ann tp = parameterType) then
            Some (match assoc name passedParams with
                  | Some v => inr v
                  | None => inl (KeyError name)
                  end)
          else None
      | None => None
      end
  end.

(** Rule 2: a state-core attribute of that name that is not [None]. *)
Definition ruleCoreAttr (c : core) (name : string) : option val :=
  match getattr_default c name with
  | VNone => None
  | v => Some v
  end.

(** Rule 3: a live state object in the cluster, under the [__name__] of
    the parameter's type. *)
Definition ruleSibling (cluster : gmap string nat) (parameterType : ty) : option val :=
  VRef <$> cluster !! ty_name parameterType.

(** Rule 4: the state core, when the parameter's type is the core's type. *)
Definition ruleCoreType (c : core) (parameterType : ty) : option val :=
  if decide (parameterType = core_ty c) then Some VCore else None.

(** Rule 5: the machine instance, when the type is an inputs protocol. *)
Definition ruleSelf (inputProtocols : list ty) (parameterType : ty) : option val :=
  if decide (parameterType ∈ inputProtocols) then Some VSelf else None.

(** The first rule that yields a value. *)
Definition firstRule (rules : list (option val)) : option val :=
  foldr (fun o acc => match o with Some v => Some v | None => acc end) None rules.

(** None of the five rules yields a value for the parameter, whatever
    the call bound. *)
Definition noRuleApplies (inputProtocols : list ty) (name : string) (parameterType : ty)
    (transitionSignature : option (list param)) (c : core) (cluster : gmap string nat) : Prop :=
  (forall passedParams, ruleTransition name parameterType transitionSignature passedParams = None) /\
  ruleCoreAttr c name = None /\ ruleSibling cluster parameterType = None /\
  ruleCoreType c parameterType = None /\ ruleSelf inputProtocols parameterType = None.

(** The (state, input) pair a table row is keyed by. *)
Definition transitionKey (t : string * string * string * string) : string * string :=
  (t.1.1.1, t.1.1.2).

(** Every handler of the state declarations, with the name of its
    state, in the order [buildClass] visits them. *)
Definition bindings (sds : list stateDecl) : list (string * (string * string * string)) :=
  concat ((fun sd => (fun h => (ty_name (sd_cls sd), h)) <$> sd_handlers sd) <$> sds).

(** The cluster after leaving [oldState] for [newState]: the old entry is
    dropped when the two differ and the old state does not persist. *)
Definition leaveCluster (oldFactory : factory) (oldState newState : string)
    (cluster : gmap string nat) : gmap string nat :=
  if decide (oldState ≠ newState) then
    if f_persist oldFactory then cluster else delete oldState cluster
  else cluster.

(** A dispatch completed its state update: it returned, or it raised the
    unhandled-input error after the update. *)
Definition completed (res : exn + val) : Prop :=
  match res with
  | inr _ => True
  | inl (RuntimeError _) => True
  | inl _ => False
  end.

(** The cluster invariant of the spec (section 8). *)
Definition clusterInvariant (stateFactories : gmap string factory) (m : machine) : Prop :=
  is_Some (m_cluster m !! m_state m) /\
  forall s f, s <> m_state m -> stateFactories !! s = Some f -> f_persist f = false ->
    m_cluster m !! s = None.

(** Every state with an object in the cluster has a factory: the cluster
    only gets an entry after [stateFactories[currentState]] succeeded. *)
Definition clusterHasFactories (stateFactories : gmap string factory) (m : machine) : Prop :=
  forall s r, m_cluster m !! s = Some r -> is_Some (stateFactories !! s).

(** Every state factory is stored under its own [__name__]. *)
Definition factoriesKeyed (stateFactories : gmap string factory) : Prop :=
  forall k f, stateFactories !! k = Some f -> f_name f = k.

(** Every object in the cluster was allocated before [m_next]. *)
Definition refsBelow (m : machine) : Prop :=
  forall s r, m_cluster m !! s = Some r -> r < m_next m.

(* ------------------------------------------------------------------ *)
(** ** The Idle/Active switch of the spec's scenario *)

Module Switch.

Definition tyIdle : ty := Ty 1 "Idle".
Definition tyActive : ty := Ty 2 "Active".
Definition tyErrorState : ty := Ty 3 "ErrorState".
Definition tyCore : ty := Ty 4 "SwitchCore".
Definition tySwitch : ty := Ty 5 "Switch".

Definition selfParam : param := Param "self" ty_empty false.

Definition start : inputDecl := InputDecl "start" [selfParam].
Definition stop : inputDecl := InputDecl "stop" [selfParam].

Definition factories : gmap string factory :=
  <["Idle" := Factory "Idle" tyIdle [] true]>
  (<["Active" := Factory "Active" tyActive [] false]>
  (<["ErrorState" := Factory "ErrorState" tyErrorState [] false]> ∅)).

Definition table : automaton :=
  Automaton [("Idle", "start", "Active", "start"); ("Active", "stop", "Idle", "stop")]
    "ErrorState".

Definition protocols : list ty := [tySwitch].

(** Every output method returns the object it was called on. *)
Definition returnsSelf (h : gmap nat obj) (r : nat) (out : string)
    (a : list val) (kw : list (string * val)) : val := VRef r.

Definition theCore : core := Core tyCore ∅.

Definition dispatch (i : inputDecl) : M val :=
  _bindableInputMethod factories table protocols returnsSelf i [] [].

Definition initial : machine :=
  match construct factories protocols "Idle" theCore with
  | (m, _) => m
  end.

(** The declarations behind [factories] and [table]: [Idle] handles
    [start] by entering [Active], [Active] handles [stop] by entering
    [Idle]. *)
Definition idleDecl : stateDecl := StateDecl tyIdle [] true [("start", "start", "Active")].
Definition activeDecl : stateDecl := StateDecl tyActive [] false [("stop", "stop", "Idle")].
Definition errorDecl : stateDecl := StateDecl tyErrorState [] false [].

Definition switchBuilder : builder :=
  Builder [idleDecl; activeDecl] errorDecl [["start"; "stop"]] false.

(** [Idle] with two output methods, [begin] and [start], both bound to
    the input [start]. *)
Definition ambiguousIdle : stateDecl :=
  StateDecl tyIdle [] true [("begin", "start", "Active"); ("start", "start", "Active")].

Definition ambiguousBuilder : builder :=
  Builder [ambiguousIdle; activeDecl] errorDecl [["start"; "stop"]] false.

Definition after (is : list inputDecl) : machine * (exn + val) :=
  fold_left (fun '(m, _) i => dispatch i m) is (initial, inr VNone).

End Switch.


(** [start(self, speed: int = 3)] entering [Active(speed: int)], with a
    state core whose [speed] attribute is [5]. *)
Module Speed.

Definition tyInt : ty := Ty 6 "int".

Definition start : inputDecl :=
  InputDecl "start" [Switch.selfParam; Param "speed" tyInt true].

Definition factories : gmap string factory :=
  <["Idle" := Factory "Idle" Switch.tyIdle [] true]>
  (<["Active" := Factory "Active" Switch.tyActive [Param "speed" tyInt false] false]>
  (<["ErrorState" := Factory "ErrorState" Switch.tyErrorState [] false]> ∅)).

Definition theCore : core := Core Switch.tyCore {[ "speed" := VInt 5 ]}.

Definition initial : machine :=
  (construct factories Switch.protocols "Idle" theCore).1.

Definition dispatch (i : inputDecl) (a : list val) (kw : list (string * val)) : M val :=
  _bindableInputMethod factories Switch.table Switch.protocols Switch.returnsSelf i a kw.

Definition activeFactory : factory :=
  Factory "Active" Switch.tyActive [Param "speed" tyInt false] false.

End Speed.

(** The spec's scenario of a constructor that needs a sibling's object:
    [Active(report: Report)] while no [Report] object was ever built. *)
Module Needy.

Definition tyReport : ty := Ty 7 "Report".

Definition factories : gmap string factory :=
  <["Idle" := Factory "Idle" Switch.tyIdle [] true]>
  (<["Active" := Factory "Active" Switch.tyActive [Param "report" tyReport false] false]>
  (<["Report" := Factory "Report" tyReport [] false]>
  (<["ErrorState" := Factory "ErrorState" Switch.tyErrorState [] false]> ∅))).

Definition initial : machine :=
  (construct factories Switch.protocols "Idle" Switch.theCore).1.

Definition dispatch (i : inputDecl) : M val :=
  _bindableInputMethod factories Switch.table Switch.protocols Switch.returnsSelf i [] [].

End Needy.

(** The Idle/Active instance after [start()]. *)
Definition switchStarted : machine := (Switch.dispatch Switch.start Switch.initial).1.

(* ------------------------------------------------------------------ *)
(** ** [_stateInputs] and the [handle] decorator *)

(** An item of the [__metadata__] of a handler's return annotation:
    [Enter(state)] names the state class to enter; other items are
    ignored by [_stateInputs]. *)
Inductive annotationMeta :=
| MetaEnter (state : string)
| MetaOther.

(** The [__automat_handler__] attribute of a decorated output method,
    with the names of the input method and of the [enter] factory, and
    the metadata of the method's return annotation (empty when it is not
    an [Annotated] type). *)
Record handlerAttr := HandlerAttr {
  h_input : string;
  h_enter : option string;
  h_returnMeta : list annotationMeta
}.

(** [builder.handle(input, enter)] applied to an output method whose
    return annotation carries [returnMeta]. *)
Definition handle (input : string) (enter : option string) (returnMeta : list annotationMeta)
  : handlerAttr :=
  HandlerAttr input enter returnMeta.

(** [result.enter(new)]: [doSetEnter] replaces the enter parameter. *)
Definition doSetEnter (h : handlerAttr) (new : option string) : handlerAttr :=
  HandlerAttr (h_input h) new (h_returnMeta h).

(** The [newStateFactory] of [_stateInputs] (Python 3.9 and later): the
    [enter] parameter, or the state class itself, overridden by each
    [Enter] item of the return annotation in turn. *)
Definition newStateFactoryOf (stateClassName : string) (h : handlerAttr) : string :=
  foldl (fun newStateFactory each =>
           match each with MetaEnter s => s | MetaOther => newStateFactory end)
    (match h_enter h with Some enterParameter => enterParameter | None => stateClassName end)
    (h_returnMeta h).

(** [_stateInputs(stateClass)] over [dir(stateClass)]: each attribute
    name with its [__automat_handler__], if it has one. *)
Fixpoint _stateInputs (stateClassName : string) (attrs : list (string * option handlerAttr))
  : list (string * string * string) :=
  match attrs with
  | [] => []
  | (outputMethodName, None) :: attrs' => _stateInputs stateClassName attrs'
  | (outputMethodName, Some h) :: attrs' =>
      (outputMethodName, h_input h, newStateFactoryOf stateClassName h)
        :: _stateInputs stateClassName attrs'
  end.

(* ------------------------------------------------------------------ *)
(** ** The namespace of the class [buildClass] creates *)

(** An inputs protocol: its [__name__] and [dir(protocol)]. *)
Record protocolDecl := ProtocolDecl { pr_name : string; pr_dir : list string }.

(** The values of the class dictionary: the [_stateFactories] table, the
    method [_bindableInputMethod] makes for an input of a protocol, and
    the method [_bindableCommonMethod] makes for a common implementation
    (named by its [__name__]) with its [includePrivate] flag. *)
Inductive classAttr :=
| ClsStateFactories
| ClsInput (protocol : string) (input : string)
| ClsCommon (impl : string) (includePrivate : bool).

#[global] Instance classAttr_eq_dec : EqDecision classAttr.
Proof. solve_decision. Defined.

(** [getattr(self._stateProtocol, name)] on a missing name. *)
Inductive attrError := AttributeError (name : string).

Section Namespace.

(** [dir(Protocol)] *)
Variable protocolDir : list string.

(** [dir(type(self._stateProtocol))]: the attributes of the protocol's
    metaclass ([_ProtocolMeta], [ABCMeta], [type], [object]).  [getattr]
    on a class finds them too ([register], [mro], ...), though [dir] of
    the class does not list them. *)
Variable metaclassDir : list string.

Definition METADATA_DETRITUS : list string := "__dict__" :: "__weakref__" :: protocolDir.

(** [frozenset(dir(eachStateProtocol)) - METADATA_DETRITUS] *)
Definition possibleInputsOf (p : protocolDecl) : list string :=
  filter (fun n => n ∉ METADATA_DETRITUS) (pr_dir p).

(** [ns[eachInput] = _bindableInputMethod(...)] over
    [[self._stateProtocol, *self._privateProtocols]]. *)
Fixpoint inputNamespace (protocols : list protocolDecl) (ns : gmap string classAttr)
  : gmap string classAttr :=
  match protocols with
  | [] => ns
  | eachStateProtocol :: protocols' =>
      inputNamespace protocols'
        (foldl (fun ns eachInput => <[eachInput := ClsInput (pr_name eachStateProtocol) eachInput]> ns)
           ns (possibleInputsOf eachStateProtocol))
  end.

(** The [commonMethods] dictionary comprehension over
    [self._commonMethods.items()], in insertion order;
    [getattr(self._stateProtocol, commonMethodName)] succeeds when the
    name is an attribute of the class or of its metaclass. *)
Fixpoint commonNamespace (stateProtocol : protocolDecl) (cms : list (string * (string * bool)))
    (acc : gmap string classAttr) : attrError + gmap string classAttr :=
  match cms with
  | [] => inr acc
  | (commonMethodName, (commonImpl, includePrivate)) :: cms' =>
      if decide (commonMethodName ∈ pr_dir stateProtocol ++ metaclassDir) then
        commonNamespace stateProtocol cms'
          (<[commonMethodName := ClsCommon commonImpl includePrivate]> acc)
      else inl (AttributeError commonMethodName)
  end.

(** The class dictionary [{**ns, **commonMethods}]. *)
Definition classNamespace (stateProtocol : protocolDecl) (privateProtocols : list protocolDecl)
    (cms : list (string * (string * bool))) : attrError + gmap string classAttr :=
  let ns := inputNamespace (stateProtocol :: privateProtocols)
              {[ "_stateFactories" := ClsStateFactories ]} in
  match commonNamespace stateProtocol cms ∅ with
  | inl e => inl e
  | inr commonMethods => inr (commonMethods ∪ ns)
  end.

End Namespace.

(* ------------------------------------------------------------------ *)
(** ** [_buildStateBuilder] and [_stateBuilder] *)

(** The value builders [_getOtherState(name)], [_getCore] and
    [_getSynthSelf]. *)
Inductive valueBuilder :=
| GetOtherState (name : string)
| GetCore
| GetSynthSelf.

(** Calling a value builder on [existingStateCluster]. *)
Definition runValueBuilder (existingStateCluster : gmap string nat) (vb : valueBuilder)
  : exn + val :=
  match vb with
  | GetOtherState name =>
      match existingStateCluster !! name with
      | Some r => inr (VRef r)
      | None => inl (KeyError name)
      end
  | GetCore => inr VCore
  | GetSynthSelf => inr VSelf
  end.

Section StateBuilder.

Variable stateCoreType : ty.
Variable stateFactories : gmap string factory.
Variable inputProtocols : list ty.

(** The body of [_valueSuppliers] for one parameter name. *)
Definition valueSuppliersFor (factorySignature : list param) (notSuppliedByTransitionName : string)
  : list (string * valueBuilder) :=
  match find_param notSuppliedByTransitionName factorySignature with
  | None => []
  | Some notSuppliedByTransition =>
      let parameterType := p_ann notSuppliedByTransition in
      (if decide (is_Some (stateFactories !! ty_name parameterType))
       then [(notSuppliedByTransitionName, GetOtherState (ty_name parameterType))] else []) ++
      (if decide (parameterType = stateCoreType)
       then [(notSuppliedByTransitionName, GetCore)] else []) ++
      (if decide (parameterType ∈ inputProtocols)
       then [(notSuppliedByTransitionName, GetSynthSelf)] else [])
  end.

(** [list(_valueSuppliers())], where [order] is the iteration order of
    the set of factory parameters not in the transition signature. *)
Definition _valueSuppliers (factorySignature : list param) (order : list string)
  : list (string * valueBuilder) :=
  order ≫= valueSuppliersFor factorySignature.

(** The dictionary comprehension of [_stateBuilder]: every supplier is
    called in turn, a later one for the same name overriding. *)
Fixpoint evalSuppliers (existingStateCluster : gmap string nat)
    (suppliers : list (string * valueBuilder)) (acc : gmap string val)
  : exn + gmap string val :=
  match suppliers with
  | [] => inr acc
  | (extraParamName, extraParamFactory) :: suppliers' =>
      match runValueBuilder existingStateCluster extraParamFactory with
      | inl e => inl e
      | inr v => evalSuppliers existingStateCluster suppliers' (<[extraParamName := v]> acc)
      end
  end.

(** The function [_stateBuilder] returns, called with [args] and
    [kwargs]: the keyword arguments [stateFactory( **toPass, **extra)]
    receives, or the exception raised first; a name in both dictionaries
    is a [TypeError] of the call. *)
Definition _stateBuilder (suppliers : list (string * valueBuilder))
    (existingStateCluster : gmap string nat) (args : list val) (kwargs : gmap string val)
  : exn + gmap string val :=
  let toPass := kwargs in
  match evalSuppliers existingStateCluster suppliers ∅ with
  | inl e => inl e
  | inr extra =>
      if decide (dom toPass ∩ dom extra = ∅) then inr (extra ∪ toPass) else inl TypeError
  end.

(** [_buildStateBuilder(stateCoreType, stateFactory, stateFactories,
    transitionMethod, inputProtocols)] *)
Definition _buildStateBuilder (stateFactory : factory) (order : list string)
  : gmap string nat -> list val -> gmap string val -> exn + gmap string val :=
  _stateBuilder (_valueSuppliers (f_params stateFactory) order).

End StateBuilder.

(* ------------------------------------------------------------------ *)
(** ** [src/automat/_discover.py] *)

(** Twisted's module wrappers: a [PythonModule] with its dotted name, or
    a [PythonAttribute] with its dotted name and the wrapper it was found
    on. *)
Inductive wrapper :=
| PythonModule (name : string)
| PythonAttribute (name : string) (onObject : wrapper).

#[global] Instance wrapper_eq_dec : EqDecision wrapper.
Proof. solve_decision. Defined.

Definition w_name (w : wrapper) : string :=
  match w with PythonModule n => n | PythonAttribute n _ => n end.

(** The character [.] (ASCII 46). *)
Definition dotChar : Ascii.ascii := Ascii.ascii_of_nat 46.

(** [str.split(".")] *)
Fixpoint split_dot (s : string) : list string :=
  match s with
  | EmptyString => [EmptyString]
  | String c s' =>
      let rest := split_dot s' in
      if decide (c = dotChar) then EmptyString :: rest
      else match rest with
           | r :: rs => String c r :: rs
           | [] => [String c EmptyString]
           end
  end.

(** [name.rsplit(".", 1)[-1]] *)
Definition rsplit_last (s : string) : string :=
  match last (split_dot s) with Some x => x | None => s end.

(** The exceptions of [wrapFQPN]. *)
Inductive discoverError :=
| InvalidFQPN (msg : string)
| NoModule (name : string)
| NoObject (name : string).

Section Discover.

(** The module system, as twisted's [getModule], [module[name]] and
    [iterAttributes] see it; imports are taken to succeed. *)
Variable getModule : string -> option wrapper.
Variable subModule : wrapper -> string -> option wrapper.
Variable iterAttributes : wrapper -> list wrapper.
(** [%r] of a string. *)
Variable pyrepr : string -> string.

(** The loop that finds the bottom-most module. *)
Fixpoint descendModules (module : wrapper) (components : list string) : wrapper * list string :=
  match components with
  | [] => (module, [])
  | component :: components' =>
      match subModule module component with
      | Some module' => descendModules module' components'
      | None => (module, component :: components')
      end
  end.

(** The loop that finds the bottom-most attribute. *)
Fixpoint findAttributes (attribute : wrapper) (components : list string)
  : discoverError + wrapper :=
  match components with
  | [] => inr attribute
  | component :: components' =>
      match find (fun child => bool_decide (rsplit_last (w_name child) = component))
              (iterAttributes attribute) with
      | Some child => findAttributes child components'
      | None => inl (NoObject (w_name attribute +:+ "." +:+ component))
      end
  end.

Definition wrapFQPN (fqpn : string) : discoverError + wrapper :=
  if decide (fqpn = EmptyString) then inl (InvalidFQPN "FQPN was empty")
  else
    let components := split_dot fqpn in
    if decide (EmptyString ∈ components) then
      inl (InvalidFQPN ("name must be a string giving a '.'-separated list of Python "
                        +:+ "identifiers, not " +:+ pyrepr fqpn))
    else
      match components with
      | [] => inr (PythonModule fqpn)
      | component :: components' =>
          match getModule component with
          | None => inl (NoModule component)
          | Some module =>
              match descendModules module components' with
              | (module', []) => inr module'
              | (module', components'') => findAttributes module' components''
              end
          end
      end.

End Discover.

Section FindMachines.

(** Python values as [attr.load()] returns them, with [==]. *)
Context {pyvalue : Type} `{EqDecision pyvalue}.
Variable load : wrapper -> pyvalue.
(** [isinstance(value, MethodicalMachine) or isinstance(value, TypifiedMachine)] *)
Variable isMachine : pyvalue -> bool.
Variable isclass : pyvalue -> bool.
(** The [__name__] of [inspect.getmodule(value)], [None] when unknown. *)
Variable getmoduleName : pyvalue -> option string.
Variable iterAttributesOf iterModules : wrapper -> list wrapper.

(** The module a wrapper is found in. *)
Fixpoint moduleOf (w : wrapper) : wrapper :=
  match w with
  | PythonModule _ => w
  | PythonAttribute _ onObject => moduleOf onObject
  end.

Definition isOriginalLocation (attr : wrapper) : bool :=
  match getmoduleName (load attr) with
  | None => false
  | Some sourceModuleName => bool_decide (w_name (moduleOf attr) = sourceModuleName)
  end.

Definition isPythonModule (w : wrapper) : bool :=
  match w with PythonModule _ => true | PythonAttribute _ _ => false end.

(** The [while queue] loop for at most [fuel] rounds: the deque runs
    left to right, [pop] takes its right end and [extendleft] puts the
    items on its left end in reverse; the pairs yielded, in order.  The
    [print] of each inspected value is left out. *)
Fixpoint findMachinesLoop (fuel : nat) (queue : list wrapper) (visited : list pyvalue)
  : list (string * pyvalue) :=
  match fuel with
  | O => []
  | S fuel' =>
      match last queue with
      | None => []
      | Some attr =>
          let queue' := removelast queue in
          let value := load attr in
          if isMachine value && bool_decide (value ∉ visited) then
            (w_name attr, value) :: findMachinesLoop fuel' queue' (value :: visited)
          else if isclass value && isOriginalLocation attr && bool_decide (value ∉ visited) then
            findMachinesLoop fuel' (reverse (iterAttributesOf attr) ++ queue') (value :: visited)
          else if isPythonModule attr && bool_decide (value ∉ visited) then
            findMachinesLoop fuel'
              (reverse (iterModules attr) ++ reverse (iterAttributesOf attr) ++ queue')
              (value :: visited)
          else findMachinesLoop fuel' queue' visited
      end
  end.

Definition findMachinesViaWrapper (fuel : nat) (within : wrapper) : list (string * pyvalue) :=
  findMachinesLoop fuel [within] [].

End FindMachines.

(* ------------------------------------------------------------------ *)
(** ** Vocabulary and scenarios for the further properties *)

(** The factory table after [stateFactories[stateName] = stateClass] for
    each declaration in turn. *)
Definition declareStates (sds : list stateDecl) (sf : gmap string factory) : gmap string factory :=
  foldl (fun acc sd => <[ty_name (sd_cls sd) := stateFactoryOf sd]> acc) sf sds.

(** [".".join([x, *rs])] *)
Definition joinDot (x : string) (rs : list string) : string :=
  foldl (fun acc c => acc +:+ "." +:+ c) x rs.

(** A public protocol with inputs [start], [status] and [stop], and a
    private one with [reset] and [start]. *)
Definition spSwitch : protocolDecl := ProtocolDecl "SwitchProto" ["__dict__"; "start"; "status"; "stop"].
Definition spPrivate : protocolDecl := ProtocolDecl "Private" ["reset"; "start"].
(** A private protocol with an input named like a metaclass attribute. *)
Definition spRegister : protocolDecl := ProtocolDecl "Private" ["register"; "start"].
Definition namedCommons : list (string * (string * bool)) :=
  [("status", ("statusImpl", false)); ("register", ("registerImpl", true))].

(** [Active(report: Report, core: SwitchCore, speed: int)] *)
Definition activeNeeds : factory :=
  Factory "Active" Switch.tyActive
    [Param "report" Needy.tyReport false; Param "core" Switch.tyCore false; Param "speed" Speed.tyInt false]
    false.

(** The Idle/Active instance after the unhandled [stop()] sent it to
    [ErrorState]. *)
Definition switchErrored : machine := (Switch.dispatch Switch.stop Switch.initial).1.

(** A module tree with the package [automat], its module
    [automat._typical] and the class [TypicalBuilder] in it. *)
Module Tree.

Definition getModule (c : string) : option wrapper :=
  if decide (c = "automat") then Some (PythonModule "automat") else None.

Definition subModule (m : wrapper) (c : string) : option wrapper :=
  if decide (m = PythonModule "automat" /\ c = "_typical") then Some (PythonModule "automat._typical")
  else None.

Definition iterAttributes (w : wrapper) : list wrapper :=
  if decide (w = PythonModule "automat._typical") then
    [PythonAttribute "automat._typical.TypicalBuilder" (PythonModule "automat._typical")]
  else [].

Definition pyrepr (s : string) : string := "'" +:+ s +:+ "'".

End Tree.

(* ------------------------------------------------------------------ *)
(** ** Reasoning about the monadic code *)

Ltac unfold_M :=
  unfold lift_err, getitem, mbind, M_bind, mret, M_ret, get, modify, raise in *.

Lemma transition_eq (au : automaton) (input : string) (m : machine) :
  transition au input m =
  (set_state (outputForInput au (m_state m) input).1 m,
   inr (outputForInput au (m_state m) input).2).
Proof.
  unfold transition. unfold_M. destruct (outputForInput au (m_state m) input); reflexivity.
Qed.

Section Facts.

Variable stateFactories : gmap string factory.
Variable au : automaton.
Variable inputProtocols : list ty.
Variable callOutput : gmap nat obj -> nat -> string -> list val -> list (string * val) -> val.

Lemma buildNewState_eq tm f a kw m :
  _buildNewState inputProtocols tm f a kw m =
  match buildArgs inputProtocols tm f a kw m with
  | inl e => (m, inl e)
  | inr k => callFactory f k m
  end.
Proof.
  unfold _buildNewState, buildArgs, passedParamsOf. unfold_M.
  destruct (in_sig <$> tm) as [sig|]; [destruct (bind_params sig (VCore :: a) kw)|];
    try reflexivity; destruct (resolveParams _ _ _ _ _ _); reflexivity.
Qed.

Lemma buildNewState_cases tm f a kw m m' res :
  _buildNewState inputProtocols tm f a kw m = (m', res) ->
  (exists e, buildArgs inputProtocols tm f a kw m = inl e /\ res = inl e /\ m' = m) \/
  (exists k, buildArgs inputProtocols tm f a kw m = inr k /\ res = inr (m_next m) /\ m' = allocated f k m).
Proof.
  rewrite buildNewState_eq. destruct (buildArgs inputProtocols tm f a kw m) as [e|k].
  - intros H. injection H as <- <-. left. eauto.
  - unfold callFactory. intros H. injection H as <- <-. right. eauto.
Qed.

End Facts.

Ltac split_matches :=
  repeat match goal with
  | H : context [match ?x with _ => _ end] |- _ => destruct x eqn:?
  | |- context [match ?x with _ => _ end] => destruct x eqn:?
  end.

Ltac open_builds :=
  repeat match goal with
  | H : _buildNewState _ _ _ _ _ _ = _ |- _ =>
      apply buildNewState_cases in H;
      destruct H as [(? & ? & ? & ?)|(? & ? & ? & ?)]; simplify_eq/=
  end.

Section UpdateFacts.

Variable stateFactories : gmap string factory.
Variable inputProtocols : list ty.

Lemma updateState_shape old a kw tm m m' res :
  _updateState stateFactories inputProtocols old a kw tm m = (m', res) ->
  m_core m' = m_core m /\ m_state m' = m_state m /\ m_next m <= m_next m' /\
  (forall s r, m_cluster m' !! s = Some r ->
     m_cluster m !! s = Some r \/
     (s = m_state m /\ r = m_next m /\ m_cluster m !! s = None)) /\
  (forall s r, m_cluster m !! s = Some r -> m_cluster m' !! s = None ->
     old = Some s /\ s <> m_state m /\
     exists f, stateFactories !! s = Some f /\ f_persist f = false).
Proof.
  unfold _updateState. unfold_M.
  intros H. split_matches; simplify_eq/=; open_builds.
  all: split_and!; simpl; try lia; try reflexivity.
  all: intros s r; rewrite ?lookup_delete, ?lookup_insert; repeat case_decide;
    subst; intros; simplify_eq/=; try congruence; eauto.
Qed.

Lemma updateState_log old a kw tm m m' res :
  _updateState stateFactories inputProtocols old a kw tm m = (m', res) ->
  exists evs, m_log m' = m_log m ++ evs /\
  forall n r c, EvBuild n r c ∈ evs ->
    m_cluster m !! m_state m = None /\ r = m_next m /\ c = m_cluster m /\
    exists f, stateFactories !! m_state m = Some f /\ n = f_name f.
Proof.
  unfold _updateState. unfold_M.
  intros H. split_matches; simplify_eq/=; open_builds.
  all: first [ exists []; split; [symmetry; apply app_nil_r|]
             | eexists; split; [cbn [m_log add_event set_cluster allocated];
                                rewrite <- ?app_assoc; reflexivity|] ].
  all: intros nm rf cl Hin; rewrite ?elem_of_app, ?elem_of_cons in Hin.
  all: repeat match goal with
       | H : _ ∈ [] |- _ => apply not_elem_of_nil in H; contradiction
       | H : _ \/ _ |- _ => destruct H
       end; simplify_eq/=; eauto 10.
Qed.

(** A completed update: the entered state has an object, and a
    non-persistent state that was left has none. *)
Lemma updateState_done old a kw tm m m' x :
  _updateState stateFactories inputProtocols old a kw tm m = (m', inr x) ->
  is_Some (m_cluster m' !! m_state m) /\
  (forall s f, old = Some s -> s <> m_state m -> stateFactories !! s = Some f ->
     f_persist f = false -> m_cluster m' !! s = None).
Proof.
  unfold _updateState. unfold_M.
  intros H. split_matches; simplify_eq/=; open_builds.
  all: split; [rewrite ?lookup_delete, ?lookup_insert; repeat case_decide; subst;
               simplify_eq/=; eauto; congruence|].
  all: intros s' f' Hs Hne Hf Hp; simplify_eq/=;
    rewrite ?lookup_delete, ?lookup_insert; repeat case_decide; subst;
    simplify_eq/=; try congruence; try contradiction.
Qed.

End UpdateFacts.

Section DispatchFacts.

Variable stateFactories : gmap string factory.
Variable au : automaton.
Variable inputProtocols : list ty.
Variable callOutput : gmap nat obj -> nat -> string -> list val -> list (string * val) -> val.

Abbreviation dispatch := (_bindableInputMethod stateFactories au inputProtocols callOutput).

(** The three ways a dispatch goes once the current state's object is
    found: the update raises, the input is unhandled, or the output runs. *)
Lemma dispatch_cases i a kw m m' res :
  dispatch i a kw m = (m', res) ->
  (m_cluster m !! m_state m = None /\ m' = m /\ res = inl (KeyError (m_state m))) \/
  exists rS m2 res2,
    m_cluster m !! m_state m = Some rS /\
    _updateState stateFactories inputProtocols (Some (m_state m)) a kw (Some i)
      (set_state (outputForInput au (m_state m) (in_name i)).1 m) = (m2, res2) /\
    ((exists e, res2 = inl e /\ m' = m2 /\ res = inl e) \/
     (exists x, res2 = inr x /\ (outputForInput au (m_state m) (in_name i)).2 = None /\
        m' = m2 /\ res = inl (RuntimeError (unhandledMsg (m_state m) (in_name i)))) \/
     (exists x out, res2 = inr x /\ (outputForInput au (m_state m) (in_name i)).2 = Some out /\
        m' = add_event (EvOutput rS out) m2 /\
        res = inr (callOutput (m_heap m2) rS out a kw))).
Proof.
  unfold _bindableInputMethod. unfold_M.
  destruct (m_cluster m !! m_state m) as [rS|] eqn:HS.
  - rewrite transition_eq.
    destruct (_updateState _ _ _ _ _ _ _) as [m2 [e|x]] eqn:Hu.
    + intros H. injection H as <- <-. right. exists rS, m2, (inl e). eauto 10.
    + destruct (outputForInput au (m_state m) (in_name i)).2 as [out|] eqn:Ho;
        intros H; injection H as <- <-; right; exists rS, m2, (inr x); eauto 10.
  - intros H. injection H as <- <-. left. auto.
Qed.

End DispatchFacts.

(* ------------------------------------------------------------------ *)
(** ** Input dispatch: where the output runs (C1) *)

Lemma outputForInput_unhandled au st input :
  (outputForInput au st input).2 = None -> (outputForInput au st input).1 = au_unhandled au.
Proof.
  unfold outputForInput. destruct (find _ _); simpl; congruence.
Qed.

Section Claims.

Variable stateFactories : gmap string factory.
Variable au : automaton.
Variable inputProtocols : list ty.
Variable callOutput : gmap nat obj -> nat -> string -> list val -> list (string * val) -> val.

Abbreviation dispatch := (_bindableInputMethod stateFactories au inputProtocols callOutput).

(** C1 (amended): when a dispatch returns, the output method the table
    reported was called on the object of the state that was current when
    the input arrived (fetched before the cursor moved), with the caller's
    arguments, and its result is returned unchanged. *)
Theorem output_runs_on_departed_state_object i a kw m m' v :
  dispatch i a kw m = (m', inr v) ->
  exists r out,
    m_cluster m !! m_state m = Some r /\
    (outputForInput au (m_state m) (in_name i)).2 = Some out /\
    v = callOutput (m_heap m') r out a kw /\
    last (m_log m') = Some (EvOutput r out).
Proof.
  intros H. apply dispatch_cases in H.
  destruct H as [(_ & _ & ?)|(rS & m2 & res2 & HS & Hu & H)]; [congruence|].
  destruct H as [(e & _ & _ & ?)|[(x & _ & _ & _ & ?)|(x & out & _ & Ho & -> & Hv)]];
    try congruence.
  injection Hv as ->. exists rS, out. split_and!; auto.
  simpl. apply last_snoc.
Qed.

(** C2 (amended): an input with no handler in the current state [S]
    raises the unhandled-input error naming [S] and the input only after
    the transition to the error state [E] is committed: the state core is
    untouched, the cursor is on [E], [E]'s object is built and stored if
    it was absent, and [S]'s entry is evicted when [S] is non-persistent
    and differs from [E].  If [E]'s object cannot be built, that build
    error is raised instead, with the cursor on [E] and the cluster as it
    was. *)
Theorem unhandled_input_enters_error_state i a kw m m' res rS fS :
  m_cluster m !! m_state m = Some rS ->
  stateFactories !! m_state m = Some fS ->
  (outputForInput au (m_state m) (in_name i)).2 = None ->
  dispatch i a kw m = (m', res) ->
  m_core m' = m_core m /\ m_state m' = au_unhandled au /\
  ((res = inl (RuntimeError (unhandledMsg (m_state m) (in_name i))) /\
    exists rE,
      (m_cluster m !! au_unhandled au = Some rE \/
       (m_cluster m !! au_unhandled au = None /\ rE = m_next m)) /\
      m_cluster m' = leaveCluster fS (m_state m) (au_unhandled au)
                       (<[au_unhandled au := rE]> (m_cluster m))) \/
   (m_cluster m' = m_cluster m /\
    ((stateFactories !! au_unhandled au = None /\ res = inl (KeyError (au_unhandled au))) \/
     (m_cluster m !! au_unhandled au = None /\
      exists fE e, stateFactories !! au_unhandled au = Some fE /\
        buildArgs inputProtocols (Some i) fE a kw m = inl e /\ res = inl e)))).
Proof.
  intros HS HfS Hout Hd. pose proof (outputForInput_unhandled _ _ _ Hout) as Hnext.
  apply dispatch_cases in Hd.
  destruct Hd as [(? & _ & _)|(rS' & m2 & res2 & HS' & Hu & Hd)]; [congruence|].
  rewrite HS in HS'. injection HS' as <-. rewrite Hnext in Hu.
  destruct Hd as [(e & -> & -> & ->)|[(x & -> & _ & -> & ->)|(x & out & _ & Ho & _)]];
    [| |congruence].
  - (* the update raised: only the build of the error state can *)
    revert Hu. unfold _updateState. unfold_M. cbn [m_state set_state m_cluster].
    intros Hu. split_matches; simplify_eq/=; open_builds.
    all: try congruence.
    all: try match goal with H : <[_ := _]> _ !! _ = None |- _ =>
           rewrite lookup_insert in H; case_decide; simplify_eq; congruence end.
    all: split_and!; try reflexivity; right; split; [reflexivity|].
    all: eauto 10.
  - revert Hu. unfold _updateState. unfold_M. cbn [m_state set_state m_cluster].
    intros Hu. split_matches; simplify_eq/=; open_builds.
    all: try congruence.
    all: split_and!; try reflexivity; left; split; [reflexivity|].
    all: unfold leaveCluster.
    all: first [ exists (m_next m); split; [right; split; reflexivity|]
               | eexists; split; [left; reflexivity|] ].
    all: repeat case_decide;
      repeat match goal with |- context [if ?b then _ else _] => destruct b eqn:? end;
      simplify_eq/=; try congruence; try contradiction.
    all: rewrite ?insert_id by assumption; reflexivity.
Qed.

End Claims.


(** C1 counterexample: after [start()] the cursor is on [Active], whose
    object is [1], yet the output ran on [Idle]'s object [0]. *)
Lemma output_not_on_entered_state_object :
  let '(m', res) := Switch.dispatch Switch.start Switch.initial in
  m_state m' = "Active" /\ m_cluster m' !! m_state m' = Some 1 /\
  res = inr (VRef 0) /\
  res <> inr (Switch.returnsSelf (m_heap m') 1 "start" [] []).
Proof. vm_compute. split_and!; try reflexivity. congruence. Qed.

Lemma output_runs_on_departed_state_object_witness :
  Switch.dispatch Switch.start Switch.initial = (switchStarted, inr (VRef 0)) /\
  exists r out,
    m_cluster Switch.initial !! m_state Switch.initial = Some r /\
    (outputForInput Switch.table (m_state Switch.initial) (in_name Switch.start)).2 = Some out /\
    VRef 0 = Switch.returnsSelf (m_heap switchStarted) r out [] [] /\
    last (m_log switchStarted) = Some (EvOutput r out).
Proof.
  split; [vm_compute; reflexivity|].
  apply (output_runs_on_departed_state_object Switch.factories Switch.table Switch.protocols
           Switch.returnsSelf Switch.start [] [] Switch.initial switchStarted (VRef 0)).
  vm_compute. reflexivity.
Defined.

(** C2 counterexample: [start()] while [Active] has no handler; the call
    raises, but the cursor has moved to [ErrorState], whose object was
    built, and [Active]'s object was evicted. *)
Lemma unhandled_input_moves_cursor_and_cluster :
  let '(m2, res) := Switch.dispatch Switch.start switchStarted in
  res = inl (RuntimeError "unhandled: state:Active input:start") /\
  m_state switchStarted = "Active" /\ m_state m2 = "ErrorState" /\
  m_cluster switchStarted !! "Active" = Some 1 /\ m_cluster m2 !! "Active" = None /\
  m_cluster switchStarted !! "ErrorState" = None /\ m_cluster m2 !! "ErrorState" = Some 2.
Proof. vm_compute. split_and!; reflexivity. Qed.

Lemma unhandled_input_enters_error_state_witness :
  m_cluster switchStarted !! m_state switchStarted = Some 1 /\
  Switch.factories !! m_state switchStarted = Some (Factory "Active" Switch.tyActive [] false) /\
  (outputForInput Switch.table (m_state switchStarted) (in_name Switch.start)).2 = None /\
  Switch.dispatch Switch.start switchStarted =
    ((Switch.dispatch Switch.start switchStarted).1,
     inl (RuntimeError "unhandled: state:Active input:start")) /\
  (let m' := (Switch.dispatch Switch.start switchStarted).1 in
   let res : exn + val := inl (RuntimeError "unhandled: state:Active input:start") in
   m_core m' = m_core switchStarted /\ m_state m' = au_unhandled Switch.table /\
   ((res = inl (RuntimeError (unhandledMsg (m_state switchStarted) (in_name Switch.start))) /\
     exists rE,
       (m_cluster switchStarted !! au_unhandled Switch.table = Some rE \/
        (m_cluster switchStarted !! au_unhandled Switch.table = None /\
         rE = m_next switchStarted)) /\
       m_cluster m' = leaveCluster (Factory "Active" Switch.tyActive [] false)
                        (m_state switchStarted) (au_unhandled Switch.table)
                        (<[au_unhandled Switch.table := rE]> (m_cluster switchStarted))) \/
    (m_cluster m' = m_cluster switchStarted /\
     ((Switch.factories !! au_unhandled Switch.table = None /\
       res = inl (KeyError (au_unhandled Switch.table))) \/
      (m_cluster switchStarted !! au_unhandled Switch.table = None /\
       exists fE e, Switch.factories !! au_unhandled Switch.table = Some fE /\
         buildArgs Switch.protocols (Some Switch.start) fE [] [] switchStarted = inl e /\
         res = inl e))))).
Proof.
  split_and!; [vm_compute; reflexivity..|].
  apply (unhandled_input_enters_error_state Switch.factories Switch.table Switch.protocols
           Switch.returnsSelf Switch.start [] [] switchStarted
           (Switch.dispatch Switch.start switchStarted).1
           (inl (RuntimeError "unhandled: state:Active input:start")) 1
           (Factory "Active" Switch.tyActive [] false));
    vm_compute; reflexivity.
Defined.

(* ------------------------------------------------------------------ *)
(** ** Automatic parameter resolution (C3, C8, C9, C10) *)

(** [_magicValueForParameter] is the ordered choice of the five rules. *)
Lemma magicValue_rules name parameterType sig passed c cl ps :
  _magicValueForParameter name parameterType sig passed c cl ps =
  match ruleTransition name parameterType sig passed with
  | Some outcome => outcome
  | None =>
      match firstRule [ruleCoreAttr c name; ruleSibling cl parameterType;
                       ruleCoreType c parameterType; ruleSelf ps parameterType] with
      | Some v => inr v
      | None => inl (CouldNotFindAutoParam (couldNotFindMsg name))
      end
  end.
Proof.
  unfold _magicValueForParameter, ruleTransition, ruleCoreAttr, ruleSibling,
    ruleCoreType, ruleSelf, firstRule; simpl.
  destruct sig as [sig|];
    [destruct (find_param name sig) as [tp|];
       [case_decide; [reflexivity|]|]|].
  all: destruct (getattr_default c name); try reflexivity.
  all: destruct (cl !! ty_name parameterType); simpl; try reflexivity.
  all: repeat case_decide; reflexivity.
Qed.

(** The loop of [_buildNewState] passes exactly the parameters without a
    default, in order, each with the resolver's value. *)
Lemma resolveParams_spec ps ps_f sig passed c cl k :
  resolveParams ps ps_f sig passed c cl = inr k ->
  Forall2 (fun p kv => kv.1 = p_name p /\
             _magicValueForParameter (p_name p) (p_ann p) sig passed c cl ps = inr kv.2)
    (filter (fun p => p_has_default p = false) ps_f) k.
Proof.
  revert k. induction ps_f as [|p ps_f IH]; intros k; simpl.
  - intros Heq. injection Heq as <-. constructor.
  - rewrite filter_cons. destruct (p_has_default p) eqn:Hd.
    + case_decide; [discriminate|]. apply IH.
    + case_decide; [|congruence].
      destruct (_magicValueForParameter _ _ _ _ _ _ _) as [e|v] eqn:Hm; [discriminate|].
      destruct (resolveParams _ _ _ _ _ _) as [e|k'] eqn:Hr; [discriminate|].
      intros Heq. injection Heq as <-. constructor; [split; auto|]. apply IH. reflexivity.
Qed.

(** X17: [_magicValueForParameter] takes the first of the five rules in
    the fixed order; rule 1 is chosen by the triggering input's signature
    alone (same name, same annotation), so a caller-supplied value beats
    a state-core attribute, and when the caller left that argument to its
    default the lookup of the bound value raises [KeyError] instead of
    falling through.  [_buildNewState] gives the factory exactly its
    parameters without default, each with the resolver's value. *)
Theorem resolution_rules_in_order :
  (forall name parameterType sig passed c cl ps,
    _magicValueForParameter name parameterType sig passed c cl ps =
    match ruleTransition name parameterType sig passed with
    | Some outcome => outcome
    | None =>
        match firstRule [ruleCoreAttr c name; ruleSibling cl parameterType;
                         ruleCoreType c parameterType; ruleSelf ps parameterType] with
        | Some v => inr v
        | None => inl (CouldNotFindAutoParam (couldNotFindMsg name))
        end
    end) /\
  (forall ps tm f a kw m m' r,
    _buildNewState ps tm f a kw m = (m', inr r) ->
    exists passed k,
      passedParamsOf tm a kw = inr passed /\
      m_heap m' !! r = Some (Obj (f_cls f) k) /\
      Forall2 (fun p kv => kv.1 = p_name p /\
                 _magicValueForParameter (p_name p) (p_ann p) (in_sig <$> tm) passed
                   (m_core m) (m_cluster m) ps = inr kv.2)
        (filter (fun p => p_has_default p = false) (f_params f)) k).
Proof.
  split; [apply magicValue_rules|].
  intros ps tm f a kw m m' r H. apply buildNewState_cases in H.
  destruct H as [(e & _ & ? & _)|(k & Hk & Hr & ->)]; [discriminate|].
  injection Hr as ->. unfold buildArgs in Hk.
  destruct (passedParamsOf tm a kw) as [e|passed]; [discriminate|].
  exists passed, k. split_and!; [reflexivity| |].
  - simpl. apply lookup_insert_eq.
  - eapply resolveParams_spec. exact Hk.
Qed.

(** C3 divergence: [start()] called without [speed]; the state core
    has [speed = 5], yet entering [Active] raises [KeyError('speed')]
    instead of falling through to the state-core attribute. *)
Lemma defaulted_transition_argument_not_taken_from_core :
  ruleCoreAttr Speed.theCore "speed" = Some (VInt 5) /\
  (Speed.dispatch Speed.start [] [] Speed.initial).2 = inl (KeyError "speed").
Proof. vm_compute. split; reflexivity. Qed.

Lemma resolution_rules_in_order_witness :
  _buildNewState Switch.protocols (Some Speed.start) Speed.activeFactory [VInt 7] [] Speed.initial =
    ((_buildNewState Switch.protocols (Some Speed.start) Speed.activeFactory [VInt 7] []
        Speed.initial).1, inr 1) /\
  exists passed k,
    passedParamsOf (Some Speed.start) [VInt 7] [] = inr passed /\
    m_heap (_buildNewState Switch.protocols (Some Speed.start) Speed.activeFactory [VInt 7] []
              Speed.initial).1 !! 1 = Some (Obj (f_cls Speed.activeFactory) k) /\
    Forall2 (fun p kv => kv.1 = p_name p /\
               _magicValueForParameter (p_name p) (p_ann p) (in_sig <$> Some Speed.start) passed
                 (m_core Speed.initial) (m_cluster Speed.initial) Switch.protocols = inr kv.2)
      (filter (fun p => p_has_default p = false) (f_params Speed.activeFactory)) k.
Proof.
  split; [vm_compute; reflexivity|].
  apply (proj2 resolution_rules_in_order Switch.protocols (Some Speed.start) Speed.activeFactory
           [VInt 7] [] Speed.initial _ 1).
  vm_compute. reflexivity.
Defined.

(** A parameter the resolver cannot supply stops the loop of
    [_buildNewState]. *)
Lemma resolveParams_stuck ps pre p post sig passed c cl e :
  p_has_default p = false ->
  _magicValueForParameter (p_name p) (p_ann p) sig passed c cl ps = inl e ->
  (exists e', resolveParams ps (pre ++ p :: post) sig passed c cl = inl e') /\
  (Forall (fun q => p_has_default q = true \/
             exists v, _magicValueForParameter (p_name q) (p_ann q) sig passed c cl ps = inr v) pre ->
   resolveParams ps (pre ++ p :: post) sig passed c cl = inl e).
Proof.
  intros Hd Hm. induction pre as [|q pre IH]; simpl.
  - rewrite Hd, Hm. eauto.
  - destruct IH as [[e' He'] IHall].
    destruct (p_has_default q) eqn:Hq.
    + split; [eauto|]. intros Hall. apply IHall. inversion Hall; auto.
    + destruct (_magicValueForParameter (p_name q) _ _ _ _ _ _) as [e1|v] eqn:Hmq.
      * split; [eauto|]. intros Hall. inversion Hall as [|? ? [H1|[v H1]] _]; congruence.
      * split; [rewrite He'; eauto|]. intros Hall.
        rewrite IHall; [reflexivity|]. inversion Hall; auto.
Qed.

(** C8: a parameter without default that none of the five rules can
    supply makes the build of the state object fail before the factory is
    called: nothing is allocated or recorded, the machine is unchanged,
    and, once the call's arguments bound and the earlier parameters
    resolved, the error is [CouldNotFindAutoParam] naming the parameter. *)
Theorem unresolvable_parameter_fails_loudly ps tm f a kw m m' res pre p post :
  f_params f = pre ++ p :: post ->
  p_has_default p = false ->
  noRuleApplies ps (p_name p) (p_ann p) (in_sig <$> tm) (m_core m) (m_cluster m) ->
  _buildNewState ps tm f a kw m = (m', res) ->
  m' = m /\ (exists e, res = inl e) /\
  (forall passed, passedParamsOf tm a kw = inr passed ->
     Forall (fun q => p_has_default q = true \/
               exists v, _magicValueForParameter (p_name q) (p_ann q) (in_sig <$> tm) passed
                           (m_core m) (m_cluster m) ps = inr v) pre ->
     res = inl (CouldNotFindAutoParam (couldNotFindMsg (p_name p)))).
Proof.
  intros Hf Hd (H1 & H2 & H3 & H4 & H5) Hb.
  assert (Hm : forall passed, _magicValueForParameter (p_name p) (p_ann p) (in_sig <$> tm) passed
                 (m_core m) (m_cluster m) ps = inl (CouldNotFindAutoParam (couldNotFindMsg (p_name p)))).
  { intros passed. rewrite magicValue_rules, H1. simpl. rewrite H2, H3, H4, H5. reflexivity. }
  apply buildNewState_cases in Hb.
  destruct Hb as [(e & Hk & -> & ->)|(k & Hk & _ & _)].
  - split_and!; [reflexivity|eauto|].
    intros passed Hp Hall. unfold buildArgs in Hk. rewrite Hp, Hf in Hk.
    destruct (resolveParams_stuck ps pre p post _ passed _ _ _ Hd (Hm passed)) as [_ Hs].
    rewrite Hs in Hk by exact Hall. congruence.
  - exfalso. unfold buildArgs in Hk.
    destruct (passedParamsOf tm a kw) as [e|passed]; [discriminate|]. rewrite Hf in Hk.
    destruct (resolveParams_stuck ps pre p post _ passed _ _ _ Hd (Hm passed)) as [[e' He'] _].
    congruence.
Qed.

(** The spec's scenario: [Active(report: Report)] entered from [Idle]
    while no [Report] object exists. *)
Lemma unresolvable_parameter_fails_loudly_witness :
  f_params (Factory "Active" Switch.tyActive [Param "report" Needy.tyReport false] false) =
    [] ++ Param "report" Needy.tyReport false :: [] /\
  p_has_default (Param "report" Needy.tyReport false) = false /\
  noRuleApplies Switch.protocols "report" Needy.tyReport (Some (in_sig Switch.start))
    (m_core Needy.initial) (m_cluster Needy.initial) /\
  (let built := _buildNewState Switch.protocols (Some Switch.start)
                  (Factory "Active" Switch.tyActive [Param "report" Needy.tyReport false] false)
                  [] [] Needy.initial in
   built.1 = Needy.initial /\ (exists e, built.2 = inl e) /\
   (forall passed, passedParamsOf (Some Switch.start) [] [] = inr passed ->
      Forall (fun q => p_has_default q = true \/
                exists v, _magicValueForParameter (p_name q) (p_ann q) (Some (in_sig Switch.start))
                            passed (m_core Needy.initial) (m_cluster Needy.initial)
                            Switch.protocols = inr v) [] ->
      built.2 = inl (CouldNotFindAutoParam (couldNotFindMsg "report")))).
Proof.
  assert (Hno : noRuleApplies Switch.protocols "report" Needy.tyReport (Some (in_sig Switch.start))
                  (m_core Needy.initial) (m_cluster Needy.initial)).
  { split; [intros passed; reflexivity|]. vm_compute. split_and!; reflexivity. }
  split_and!; [reflexivity|reflexivity|exact Hno|..];
    apply (unresolvable_parameter_fails_loudly Switch.protocols (Some Switch.start)
             (Factory "Active" Switch.tyActive [Param "report" Needy.tyReport false] false)
             [] [] Needy.initial _ _ [] (Param "report" Needy.tyReport false) []
             eq_refl eq_refl Hno);
    apply surjective_pairing.
Defined.

(** C9: in the state-core rule the attribute is looked up by the
    parameter's name only: whatever the parameter's declared type, a
    non-[None] attribute of that name is the value, and an attribute that
    is [None] (or missing) counts as absent, so resolution goes on with the
    sibling-state, state-core-type and self rules. *)
Theorem core_attribute_matched_by_name_only name parameterType sig passed c cl ps :
  ruleTransition name parameterType sig passed = None ->
  (getattr_default c name <> VNone ->
   _magicValueForParameter name parameterType sig passed c cl ps = inr (getattr_default c name)) /\
  (getattr_default c name = VNone ->
   _magicValueForParameter name parameterType sig passed c cl ps =
   match firstRule [ruleSibling cl parameterType; ruleCoreType c parameterType;
                    ruleSelf ps parameterType] with
   | Some v => inr v
   | None => inl (CouldNotFindAutoParam (couldNotFindMsg name))
   end).
Proof.
  intros H1. rewrite magicValue_rules, H1. unfold ruleCoreAttr. split.
  - destruct (getattr_default c name); simpl; congruence.
  - intros ->. reflexivity.
Qed.

(** A core whose [rate] attribute is a string, for a parameter declared
    [int], and a core whose [rate] is [None]. *)
Lemma core_attribute_matched_by_name_only_witness :
  ruleTransition "rate" Speed.tyInt None [] = None /\
  (getattr_default (Core Switch.tyCore {[ "rate" := VStr "fast" ]}) "rate" <> VNone /\
   _magicValueForParameter "rate" Speed.tyInt None []
     (Core Switch.tyCore {[ "rate" := VStr "fast" ]}) ∅ Switch.protocols = inr (VStr "fast")) /\
  (getattr_default (Core Switch.tyCore {[ "rate" := VNone ]}) "rate" = VNone /\
   _magicValueForParameter "rate" Switch.tyIdle None []
     (Core Switch.tyCore {[ "rate" := VNone ]}) {[ "Idle" := 0 ]} Switch.protocols = inr (VRef 0)).
Proof.
  assert (H : ruleTransition "rate" Speed.tyInt None [] = None) by reflexivity.
  split; [exact H|]. split.
  - assert (Hv : getattr_default (Core Switch.tyCore {[ "rate" := VStr "fast" ]}) "rate" <> VNone)
      by (vm_compute; congruence).
    split; [exact Hv|].
    apply (proj1 (core_attribute_matched_by_name_only "rate" Speed.tyInt None []
                    (Core Switch.tyCore {[ "rate" := VStr "fast" ]}) ∅ Switch.protocols H) Hv).
  - assert (Hn : getattr_default (Core Switch.tyCore {[ "rate" := VNone ]}) "rate" = VNone)
      by (vm_compute; reflexivity).
    split; [exact Hn|].
    rewrite (proj2 (core_attribute_matched_by_name_only "rate" Switch.tyIdle None []
                      (Core Switch.tyCore {[ "rate" := VNone ]}) {[ "Idle" := 0 ]}
                      Switch.protocols eq_refl) Hn).
    vm_compute. reflexivity.
Defined.

(** [buildClass] stores each state class under its [__name__]. *)
Lemma addStates_keyed possibleInputs sds au sf au' sf' :
  (forall k f, sf !! k = Some f -> k = ty_name (f_cls f)) ->
  addStates possibleInputs sds au sf = inr (au', sf') ->
  forall k f, sf' !! k = Some f -> k = ty_name (f_cls f).
Proof.
  revert au sf. induction sds as [|sd sds IH]; intros au sf Hsf; simpl.
  - intros H. injection H as <- <-. exact Hsf.
  - destruct (addHandlers _ _ _ _) as [e|au1]; [discriminate|].
    apply IH. intros k f. rewrite lookup_insert. case_decide as Hk.
    + intros Heq. injection Heq as <-. subst k. reflexivity.
    + apply Hsf.
Qed.

Lemma addProtocols_keyed protocols sds au sf au' sf' :
  (forall k f, sf !! k = Some f -> k = ty_name (f_cls f)) ->
  addProtocols protocols sds au sf = inr (au', sf') ->
  forall k f, sf' !! k = Some f -> k = ty_name (f_cls f).
Proof.
  revert au sf. induction protocols as [|pi protocols IH]; intros au sf Hsf; simpl.
  - intros H. injection H as <- <-. exact Hsf.
  - destruct (addStates pi sds au sf) as [e|[au1 sf1]] eqn:Hs; [discriminate|].
    apply IH. eapply addStates_keyed; eauto.
Qed.

Lemma updateState_entered sf ps old a kw tm m m' x :
  _updateState sf ps old a kw tm m = (m', inr x) ->
  sf !! m_state m = Some x.1 /\ m_cluster m' !! m_state m = Some x.2.
Proof.
  unfold _updateState. unfold_M.
  intros H. split_matches; simplify_eq/=; open_builds.
  all: split; [reflexivity|].
  all: rewrite ?lookup_delete, ?lookup_insert; repeat case_decide; subst;
    simplify_eq/=; try congruence; try contradiction.
Qed.

(** C10: states are identified by the string [__name__] of their class:
    the factory table built by [buildClass] is keyed by it, the cluster
    entry of the state an update enters is stored under the cursor's
    state name, and the sibling-state rule looks the cluster up by the
    [__name__] of the parameter's declared type, so whatever object is
    stored under that name is used, whatever its class. *)
Theorem state_names_are_the_keys :
  (forall b b' au sf init,
     buildClass b = (b', inr (au, sf, init)) ->
     forall k f, sf !! k = Some f -> k = ty_name (f_cls f)) /\
  (forall sf ps old a kw tm m m' x,
     _updateState sf ps old a kw tm m = (m', inr x) ->
     sf !! m_state m = Some x.1 /\ m_cluster m' !! m_state m = Some x.2) /\
  (forall name parameterType sig passed c cl ps r,
     ruleTransition name parameterType sig passed = None ->
     getattr_default c name = VNone ->
     cl !! ty_name parameterType = Some r ->
     _magicValueForParameter name parameterType sig passed c cl ps = inr (VRef r)).
Proof.
  split_and!.
  - intros b b' au sf init. unfold buildClass.
    destruct (b_built b); [discriminate|].
    destruct (addProtocols _ _ _ _) as [e|[au1 sf1]] eqn:Hp; [discriminate|].
    destruct (b_stateClasses b); [discriminate|].
    intros H. injection H as _ -> -> _.
    eapply addProtocols_keyed; [|exact Hp]. intros k f. rewrite lookup_empty. discriminate.
  - apply updateState_entered.
  - intros name parameterType sig passed c cl ps r H1 H2 H3.
    rewrite magicValue_rules, H1. unfold ruleCoreAttr, ruleSibling. rewrite H2, H3. reflexivity.
Qed.

(** The switch's build, the construction of an instance, and a
    parameter declared with a distinct class that is also named [Idle]:
    it receives the [Idle] object of the instance. *)
Lemma state_names_are_the_keys_witness :
  (let '(b', r) := buildClass Switch.switchBuilder in
   match r with
   | inr (au, sf, init) => forall k f, sf !! k = Some f -> k = ty_name (f_cls f)
   | inl _ => False
   end) /\
  (let m0 := Machine Switch.theCore "Idle" ∅ ∅ 0 [] in
   Switch.factories !! m_state m0 = Some (Factory "Idle" Switch.tyIdle [] true) /\
   m_cluster (_updateState Switch.factories Switch.protocols None [] [] None m0).1
     !! m_state m0 = Some 0) /\
  (Ty 9 "Idle" <> Switch.tyIdle /\
   m_heap Switch.initial !! 0 = Some (Obj Switch.tyIdle []) /\
   _magicValueForParameter "idle" (Ty 9 "Idle") None [] Switch.theCore
     (m_cluster Switch.initial) Switch.protocols = inr (VRef 0)).
Proof.
  split_and!.
  - destruct (buildClass Switch.switchBuilder) as [b' [e|[[au sf] init]]] eqn:E.
    + vm_compute in E. discriminate.
    + exact (proj1 state_names_are_the_keys _ b' au sf init E).
  - apply (proj1 (proj2 state_names_are_the_keys) Switch.factories Switch.protocols None [] []
             None (Machine Switch.theCore "Idle" ∅ ∅ 0 [])
             (_updateState Switch.factories Switch.protocols None [] [] None
                (Machine Switch.theCore "Idle" ∅ ∅ 0 [])).1
             (Factory "Idle" Switch.tyIdle [] true, 0)).
    vm_compute. reflexivity.
  - unfold Switch.tyIdle. congruence.
  - vm_compute. reflexivity.
  - apply (proj2 (proj2 state_names_are_the_keys) "idle" (Ty 9 "Idle") None [] Switch.theCore
             (m_cluster Switch.initial) Switch.protocols 0); vm_compute; reflexivity.
Defined.

(* ------------------------------------------------------------------ *)
(** ** Ambiguous bindings are rejected by [buildClass] (C4) *)

Lemma addTransition_ok au st i t o au' :
  addTransition au st i t o = inr au' ->
  au_transitions au' = au_transitions au ++ [(st, i, t, o)] /\
  (st, i) ∉ transitionKey <$> au_transitions au.
Proof.
  unfold addTransition.
  destruct (existsb _ _) eqn:E; [discriminate|].
  intros H. injection H as <-. split; [reflexivity|].
  intros Hin. apply list_elem_of_fmap in Hin as (t' & Heq & Ht).
  unfold transitionKey in Heq. injection Heq as H1 H2.
  assert (existsb (fun t => bool_decide (t.1.1.1 = st /\ t.1.1.2 = i)) (au_transitions au) = true)
    as E'.
  { apply existsb_exists. exists t'. split; [apply list_elem_of_In; exact Ht|].
    apply bool_decide_eq_true. auto. }
  congruence.
Qed.

Lemma addTransition_err au st i t o e :
  addTransition au st i t o = inl e -> exists msg, e = ValueError msg.
Proof.
  unfold addTransition. destruct (existsb _ _); intros H; [injection H as <-; eauto|discriminate].
Qed.

Lemma addHandlers_err st ps hs au e :
  addHandlers st ps hs au = inl e -> exists msg, e = ValueError msg.
Proof.
  revert au. induction hs as [|[[o i] t] hs IH]; intros au; simpl; [discriminate|].
  case_decide as Hin; [|apply IH].
  destruct (addTransition au st i t o) as [e'|au'] eqn:Ha.
  - intros H. injection H as <-. eapply addTransition_err; eauto.
  - apply IH.
Qed.

Lemma addStates_err ps sds au sf e :
  addStates ps sds au sf = inl e -> exists msg, e = ValueError msg.
Proof.
  revert au sf. induction sds as [|sd sds IH]; intros au sf; simpl; [discriminate|].
  destruct (addHandlers _ _ _ _) as [e'|au'] eqn:Ha.
  - intros H. injection H as <-. eapply addHandlers_err; eauto.
  - apply IH.
Qed.

Lemma addProtocols_err protocols sds au sf e :
  addProtocols protocols sds au sf = inl e -> exists msg, e = ValueError msg.
Proof.
  revert au sf. induction protocols as [|pi protocols IH]; intros au sf; simpl; [discriminate|].
  destruct (addStates pi sds au sf) as [e'|[au' sf']] eqn:Ha.
  - intros H. injection H as <-. eapply addStates_err; eauto.
  - apply IH.
Qed.

Lemma addHandlers_ok st ps hs au au' :
  NoDup (transitionKey <$> au_transitions au) ->
  addHandlers st ps hs au = inr au' ->
  NoDup (transitionKey <$> au_transitions au') /\
  exists extra, au_transitions au' = au_transitions au ++ extra /\
    transitionKey <$> extra =
    (fun b => (b.1, b.2.1.2)) <$> filter (fun b => b.2.1.2 ∈ ps) ((fun h => (st, h)) <$> hs).
Proof.
  revert au. induction hs as [|[[o i] t] hs IH]; intros au Hnd; simpl.
  - intros H. injection H as <-. split; [exact Hnd|]. exists []. rewrite app_nil_r. auto.
  - rewrite filter_cons. simpl. case_decide as Hi.
    + destruct (addTransition au st i t o) as [e|au1] eqn:Ha; [discriminate|].
      apply addTransition_ok in Ha as [Ht Hnot].
      intros H. apply IH in H as [Hnd' (extra & He & Hk)].
      * split; [exact Hnd'|]. exists ((st, i, t, o) :: extra). split.
        -- rewrite He, Ht, <- app_assoc. reflexivity.
        -- rewrite fmap_cons, Hk. reflexivity.
      * rewrite Ht, fmap_app. apply NoDup_app. split_and!; [exact Hnd| |apply NoDup_singleton].
        intros x Hx Hx'. simpl in Hx'. apply list_elem_of_singleton in Hx'. subst x.
        contradiction.
    + apply IH. exact Hnd.
Qed.

Lemma addStates_ok ps sds au sf au' sf' :
  NoDup (transitionKey <$> au_transitions au) ->
  addStates ps sds au sf = inr (au', sf') ->
  NoDup (transitionKey <$> au_transitions au') /\
  exists extra, au_transitions au' = au_transitions au ++ extra /\
    transitionKey <$> extra =
    (fun b => (b.1, b.2.1.2)) <$> filter (fun b => b.2.1.2 ∈ ps) (bindings sds).
Proof.
  revert au sf. induction sds as [|sd sds IH]; intros au sf Hnd; simpl.
  - intros H. injection H as <- <-. split; [exact Hnd|]. exists []. rewrite app_nil_r. auto.
  - destruct (addHandlers _ _ _ _) as [e|au1] eqn:Ha; [discriminate|].
    apply addHandlers_ok in Ha as [Hnd1 (extra1 & He1 & Hk1)]; [|exact Hnd].
    intros H. apply IH in H as [Hnd' (extra & He & Hk)]; [|exact Hnd1].
    split; [exact Hnd'|]. exists (extra1 ++ extra). split.
    + rewrite He, He1, app_assoc. reflexivity.
    + unfold bindings. simpl. fold (bindings sds).
      rewrite filter_app, !fmap_app, Hk1, Hk. reflexivity.
Qed.

Lemma addProtocols_visits protocols sds au sf au' sf' ps :
  NoDup (transitionKey <$> au_transitions au) ->
  addProtocols protocols sds au sf = inr (au', sf') ->
  ps ∈ protocols ->
  exists au1 sf1 r, NoDup (transitionKey <$> au_transitions au1) /\
    addStates ps sds au1 sf1 = inr r.
Proof.
  revert au sf. induction protocols as [|pi protocols IH]; intros au sf Hnd; simpl.
  - intros _ Hin. apply not_elem_of_nil in Hin. contradiction.
  - destruct (addStates pi sds au sf) as [e|[au1 sf1]] eqn:Hs; [discriminate|].
    intros H Hin. apply elem_of_cons in Hin as [->|Hin].
    + eauto.
    + apply addStates_ok in Hs as [Hnd1 _]; [|exact Hnd]. eapply IH; eauto.
Qed.

(** C4: when two handlers (two output methods of one state class, or of
    two state classes of the same [__name__]) bind the same (state,
    input) pair, for an input of one of the protocols, [buildClass]
    raises the table's configuration error ([ValueError]) instead of
    returning a class. *)
Theorem ambiguous_binding_fails_build b ps s i o1 t1 o2 t2 pre mid post :
  b_built b = false ->
  ps ∈ b_protocols b ->
  i ∈ ps ->
  bindings (b_stateClasses b ++ [b_errorState b]) =
    pre ++ (s, (o1, i, t1)) :: mid ++ (s, (o2, i, t2)) :: post ->
  exists msg, (buildClass b).2 = inl (ValueError msg).
Proof.
  intros Hb Hps Hi Hbind. unfold buildClass. rewrite Hb.
  destruct (addProtocols _ _ _ _) as [e|[au fs]] eqn:Hp.
  - apply addProtocols_err in Hp as [msg ->]. eauto.
  - exfalso.
    eassert (Hnd0 : NoDup (transitionKey <$> au_transitions (Automaton [] _))) by constructor.
    destruct (addProtocols_visits _ _ _ _ _ _ ps Hnd0 Hp Hps)
      as (au1 & sf1 & [au2 sf2] & Hnd1 & Hs).
    apply addStates_ok in Hs as [Hnd2 (extra & He & Hk)]; [|exact Hnd1].
    rewrite He, fmap_app in Hnd2. apply NoDup_app in Hnd2 as (_ & _ & Hnd).
    rewrite Hk, Hbind, filter_app, filter_cons_True, filter_app, filter_cons_True in Hnd
      by exact Hi.
    rewrite !fmap_app, !fmap_cons in Hnd. simpl in Hnd.
    apply NoDup_app in Hnd as (_ & _ & Hnd). apply NoDup_cons in Hnd as [Hnot _].
    apply Hnot. rewrite fmap_app, fmap_cons, elem_of_app, elem_of_cons. right. left. reflexivity.
Qed.

(** [Idle] declares [begin] and [start], both for the input [start]. *)
Lemma ambiguous_binding_fails_build_witness :
  b_built Switch.ambiguousBuilder = false /\
  ["start"; "stop"] ∈ b_protocols Switch.ambiguousBuilder /\
  "start" ∈ ["start"; "stop"] /\
  bindings (b_stateClasses Switch.ambiguousBuilder ++ [b_errorState Switch.ambiguousBuilder]) =
    [] ++ ("Idle", ("begin", "start", "Active")) ::
    [] ++ ("Idle", ("start", "start", "Active")) :: [("Active", ("stop", "stop", "Idle"))] /\
  exists msg, (buildClass Switch.ambiguousBuilder).2 = inl (ValueError msg).
Proof.
  split_and!; [reflexivity|constructor|constructor|vm_compute; reflexivity|].
  apply (ambiguous_binding_fails_build Switch.ambiguousBuilder ["start"; "stop"] "Idle" "start"
           "begin" "Active" "start" "Active" [] [] [("Active", ("stop", "stop", "Idle"))]);
    [reflexivity|constructor|constructor|vm_compute; reflexivity].
Defined.

(* ------------------------------------------------------------------ *)
(** ** Eviction, the cluster invariant and persistence (C5, C6, C7) *)

(** The exceptions a state update can raise are never the
    unhandled-input error. *)
Lemma bind_params_err sig pos kw e :
  bind_params sig pos kw = inl e -> e = TypeError.
Proof.
  revert pos kw. induction sig as [|p sig IH]; intros pos kw H; simpl in H;
    split_matches; simplify_eq; eauto.
Qed.

Lemma magicValue_err name parameterType sig passed c cl ps e :
  _magicValueForParameter name parameterType sig passed c cl ps = inl e -> ~ completed (inl e).
Proof.
  unfold _magicValueForParameter. intros H. split_matches; simplify_eq; simpl; auto.
Qed.

Lemma resolveParams_err ps l sig passed c cl e :
  resolveParams ps l sig passed c cl = inl e -> ~ completed (inl e).
Proof.
  induction l as [|p l IH]; cbn [resolveParams]; [discriminate|].
  destruct (p_has_default p); [exact IH|].
  destruct (_magicValueForParameter _ _ _ _ _ _ _) eqn:Hm.
  - intros H. injection H as <-. eapply magicValue_err; eauto.
  - destruct (resolveParams _ _ _ _ _ _); [|discriminate]. exact IH.
Qed.

Lemma buildArgs_err ps tm f a kw m e :
  buildArgs ps tm f a kw m = inl e -> ~ completed (inl e).
Proof.
  unfold buildArgs, passedParamsOf.
  destruct (in_sig <$> tm) as [sig|]; [destruct (bind_params sig (VCore :: a) kw) eqn:Hb|].
  - intros H. injection H as <-. apply bind_params_err in Hb as ->. simpl. auto.
  - apply resolveParams_err.
  - apply resolveParams_err.
Qed.

Lemma updateState_err sf ps old a kw tm m m' e :
  _updateState sf ps old a kw tm m = (m', inl e) -> ~ completed (inl e).
Proof.
  unfold _updateState. unfold_M.
  intros H. split_matches; simplify_eq/=; open_builds; simpl; auto.
  eapply buildArgs_err; eauto.
Qed.

Lemma updateState_leave sf ps a kw tm m m' x S fS rS :
  S <> m_state m ->
  sf !! S = Some fS -> f_persist fS = false ->
  m_cluster m !! S = Some rS ->
  _updateState sf ps (Some S) a kw tm m = (m', inr x) ->
  m_cluster m' !! S = None /\
  exists pre, m_log m' = m_log m ++ pre ++ [EvEvict S (m_state m)] /\
    ((pre = [] /\ is_Some (m_cluster m !! m_state m)) \/
     (exists n r, pre = [EvBuild n r (m_cluster m)] /\ m_cluster m !! m_state m = None /\
        m_cluster m' !! m_state m = Some r)).
Proof.
  intros Hne Hf Hp HS. unfold _updateState. unfold_M.
  intros H. split_matches; simplify_eq/=; open_builds; try congruence; try contradiction.
  all: split; [apply lookup_delete_eq|].
  - exists []. split; [reflexivity|]. left. eauto.
  - cbn [m_log add_event set_cluster allocated]. rewrite <- app_assoc.
    eexists. split; [reflexivity|].
    right. do 2 eexists. split_and!; [reflexivity|reflexivity|].
    rewrite lookup_delete_ne, lookup_insert_eq by congruence. reflexivity.
Qed.

(** C5: a completed dispatch that leaves the non-persistent current
    state [S] for a different state [T] deletes [S]'s cluster entry, and
    the events it adds are, in order: [T]'s factory call if [T] had no
    object (made while [S]'s object was still in the cluster), then
    exactly one eviction of [S], recorded with the cursor already on [T],
    then the output call if there is one. *)
Theorem nonpersistent_exit_evicts_once_after_entry sf au ps co i a kw m m' res rS fS :
  m_cluster m !! m_state m = Some rS ->
  sf !! m_state m = Some fS -> f_persist fS = false ->
  (outputForInput au (m_state m) (in_name i)).1 <> m_state m ->
  _bindableInputMethod sf au ps co i a kw m = (m', res) ->
  completed res ->
  m_state m' = (outputForInput au (m_state m) (in_name i)).1 /\
  m_cluster m' !! m_state m = None /\
  exists pre post,
    m_log m' = m_log m ++ pre ++ [EvEvict (m_state m) (m_state m')] ++ post /\
    ((pre = [] /\ is_Some (m_cluster m !! m_state m')) \/
     (exists n r, pre = [EvBuild n r (m_cluster m)] /\ m_cluster m !! m_state m' = None /\
        m_cluster m' !! m_state m' = Some r)) /\
    (post = [] \/ exists out, post = [EvOutput rS out]).
Proof.
  intros HS Hf Hp Hne Hd Hc. apply dispatch_cases in Hd.
  destruct Hd as [(? & _ & _)|(rS' & m2 & res2 & HS' & Hu & Hd)]; [congruence|].
  rewrite HS in HS'. injection HS' as <-.
  assert (Hsh := updateState_shape _ _ _ _ _ _ _ _ _ Hu). cbn [m_state set_state] in Hsh.
  destruct Hsh as (_ & Hst & _).
  destruct Hd as [(e & -> & -> & ->)|[(x & -> & _ & -> & _)|(x & out & -> & _ & -> & _)]].
  - exfalso. eapply updateState_err; eauto.
  - apply updateState_leave with (S := m_state m) (fS := fS) (rS := rS) in Hu;
      cbn [m_state m_cluster m_log set_state] in *; auto.
    destruct Hu as [Hev (pre & Hlog & Hpre)]. rewrite Hst.
    split_and!; [reflexivity|exact Hev|]. exists pre, []. rewrite app_nil_r.
    split_and!; auto.
  - apply updateState_leave with (S := m_state m) (fS := fS) (rS := rS) in Hu;
      cbn [m_state m_cluster m_log set_state] in *; auto.
    destruct Hu as [Hev (pre & Hlog & Hpre)].
    cbn [m_state m_cluster m_log add_event]. rewrite Hst.
    split_and!; [reflexivity|exact Hev|]. exists pre, [EvOutput rS out].
    split_and!; [rewrite Hlog, <- !app_assoc; reflexivity|exact Hpre|eauto].
Qed.

(** [stop()] on the started switch: [Active] ([1]) is left for [Idle]. *)
Lemma nonpersistent_exit_evicts_once_after_entry_witness :
  let m' := (Switch.dispatch Switch.stop switchStarted).1 in
  m_cluster switchStarted !! m_state switchStarted = Some 1 /\
  Switch.factories !! m_state switchStarted = Some (Factory "Active" Switch.tyActive [] false) /\
  (outputForInput Switch.table (m_state switchStarted) (in_name Switch.stop)).1 <>
    m_state switchStarted /\
  Switch.dispatch Switch.stop switchStarted = (m', inr (VRef 1)) /\
  m_state m' = (outputForInput Switch.table (m_state switchStarted) (in_name Switch.stop)).1 /\
  m_cluster m' !! m_state switchStarted = None /\
  exists pre post,
    m_log m' = m_log switchStarted ++ pre ++ [EvEvict (m_state switchStarted) (m_state m')] ++ post /\
    ((pre = [] /\ is_Some (m_cluster switchStarted !! m_state m')) \/
     (exists n r, pre = [EvBuild n r (m_cluster switchStarted)] /\
        m_cluster switchStarted !! m_state m' = None /\ m_cluster m' !! m_state m' = Some r)) /\
    (post = [] \/ exists out, post = [EvOutput 1 out]).
Proof.
  intros m'.
  assert (Hd : Switch.dispatch Switch.stop switchStarted = (m', inr (VRef 1)))
    by (vm_compute; reflexivity).
  assert (Hne : (outputForInput Switch.table (m_state switchStarted) (in_name Switch.stop)).1 <>
                m_state switchStarted) by (vm_compute; congruence).
  split_and!; [vm_compute; reflexivity|vm_compute; reflexivity|exact Hne|exact Hd|..];
    apply (nonpersistent_exit_evicts_once_after_entry Switch.factories Switch.table
             Switch.protocols Switch.returnsSelf Switch.stop [] [] switchStarted m' (inr (VRef 1))
             1 (Factory "Active" Switch.tyActive [] false));
    solve [vm_compute; reflexivity | exact Hne | exact Hd | exact I].
Defined.

Lemma updateState_factories sf ps old a kw tm m m' res :
  _updateState sf ps old a kw tm m = (m', res) ->
  clusterHasFactories sf m -> clusterHasFactories sf m'.
Proof.
  unfold _updateState, clusterHasFactories. unfold_M.
  intros H Hall. split_matches; simplify_eq/=; open_builds; eauto.
  all: intros s r; rewrite ?lookup_delete_Some, ?lookup_insert_Some;
    intros; repeat match goal with H : _ \/ _ |- _ => destruct H | H : _ /\ _ |- _ => destruct H end;
    subst; eauto.
Qed.

(** An update that raises, entered from a state [S] with an object:
    the cluster is as it was and the entered state has no object. *)
Lemma updateState_raise sf ps S rS a kw tm m m' e :
  clusterHasFactories sf m -> m_cluster m !! S = Some rS ->
  _updateState sf ps (Some S) a kw tm m = (m', inl e) ->
  m_state m' = m_state m /\ m_cluster m' = m_cluster m /\ m_cluster m !! m_state m = None.
Proof.
  unfold _updateState, clusterHasFactories. unfold_M.
  intros Hall HS H. split_matches; simplify_eq/=; open_builds; auto.
  all: try (exfalso; match goal with
       | H : ?sf !! ?k = None, H2 : m_cluster _ !! ?k = Some _ |- _ =>
           destruct (Hall _ _ H2) as [? Hk]; congruence
       end).
  all: try (exfalso; match goal with
       | H : <[?i := _]> _ !! ?j = None |- _ =>
           rewrite lookup_insert_ne in H by congruence; congruence
       end).
  all: split_and!; try reflexivity.
  destruct (m_cluster m' !! m_state m') as [r|] eqn:Hr; [|reflexivity].
  destruct (Hall _ _ Hr) as [? Hk]. congruence.
Qed.

Lemma dispatch_factories sf au ps co i a kw m m' res :
  _bindableInputMethod sf au ps co i a kw m = (m', res) ->
  clusterHasFactories sf m -> clusterHasFactories sf m'.
Proof.
  intros Hd Hall. apply dispatch_cases in Hd.
  destruct Hd as [(_ & -> & _)|(rS & m2 & res2 & HS & Hu & Hd)]; [exact Hall|].
  apply updateState_factories in Hu; [|exact Hall].
  destruct Hd as [(e & _ & -> & _)|[(x & _ & _ & -> & _)|(x & out & _ & _ & -> & _)]]; exact Hu.
Qed.

(** C6 (amended): the cluster invariant (an entry for the current state,
    none for any other non-persistent state) holds once an instance is
    constructed, and every dispatch that completes its state update
    (returns, or raises the unhandled-input error) keeps it.  Every
    state with an object has a factory, after construction and after
    any dispatch; then a dispatch from a state with an object whose
    update raises (a missing argument, an unresolvable parameter, a
    state without factory) leaves the cursor on the new state, which has
    no object, and the cluster as it was, old state's object included. *)
Theorem cluster_invariant_after_completed_dispatch :
  (forall sf ps init c m,
     construct sf ps init c = (m, inr m) -> clusterInvariant sf m) /\
  (forall sf au ps co i a kw m m' res,
     clusterInvariant sf m ->
     _bindableInputMethod sf au ps co i a kw m = (m', res) ->
     completed res ->
     clusterInvariant sf m') /\
  (forall sf ps init c m,
     construct sf ps init c = (m, inr m) -> clusterHasFactories sf m) /\
  (forall sf au ps co i a kw m m' res,
     clusterHasFactories sf m ->
     _bindableInputMethod sf au ps co i a kw m = (m', res) ->
     clusterHasFactories sf m') /\
  (forall sf au ps co i a kw m m' e,
     clusterHasFactories sf m ->
     is_Some (m_cluster m !! m_state m) ->
     _bindableInputMethod sf au ps co i a kw m = (m', inl e) ->
     ~ completed (inl e) ->
     m_state m' = (outputForInput au (m_state m) (in_name i)).1 /\
     m_cluster m' = m_cluster m /\
     m_cluster m' !! m_state m' = None).
Proof.
  split_and!; [..|
    intros sf ps init c m; unfold construct;
    destruct (_updateState sf ps None [] [] None _) as [m1 [e|x]] eqn:Hu; [discriminate|];
    intros H; injection H as <-;
    apply (updateState_factories _ _ _ _ _ _ _ _ _ Hu);
    intros s r Hr; cbn [m_cluster] in Hr; rewrite lookup_empty in Hr; discriminate
  | intros sf au ps co i a kw m m' res Hall Hd; exact (dispatch_factories _ _ _ _ _ _ _ _ _ _ Hd Hall)
  | intros sf au ps co i a kw m m' e Hall [rS0 HS0] Hd Hc;
    apply dispatch_cases in Hd;
    destruct Hd as [(HS & _ & _)|(rS & m2 & res2 & HS & Hu & Hd)]; [congruence|];
    destruct Hd as [(e' & -> & -> & He)|[(x & _ & _ & -> & Hr)|(x & out & _ & _ & -> & Hr)]];
    [ injection He as <-;
      destruct (updateState_raise sf ps _ rS a kw (Some i) (set_state _ m) m2 e Hall HS Hu) as (Hst & Hcl & Hnone);
      cbn [m_state m_cluster set_state] in *; rewrite Hst, Hcl; split_and!; [reflexivity|reflexivity|exact Hnone]
    | injection Hr as ->; exfalso; exact (Hc I)
    | discriminate ] ];
  unfold clusterInvariant.
  - intros sf ps init c m. unfold construct.
    destruct (_updateState sf ps None [] [] None _) as [m1 [e|x]] eqn:Hu; [discriminate|].
    intros H. injection H as <-.
    destruct (updateState_shape _ _ _ _ _ _ _ _ _ Hu) as (_ & Hst & _ & Hnew & _).
    destruct (updateState_done _ _ _ _ _ _ _ _ _ Hu) as [Hcur _].
    cbn [m_state m_cluster] in *. rewrite Hst. split; [exact Hcur|].
    intros s f Hs _ _. destruct (m_cluster m1 !! s) as [r|] eqn:Hr; [|reflexivity].
    apply Hnew in Hr as [Hr|(? & _ & _)]; [|contradiction].
    rewrite lookup_empty in Hr. discriminate.
  - intros sf au ps co i a kw m m' res [Hcur Hother] Hd Hc.
    apply dispatch_cases in Hd.
    destruct Hd as [(_ & _ & ->)|(rS & m2 & res2 & HS & Hu & Hd)]; [contradiction|].
    assert (Hgo : exists x, res2 = inr x /\ m_cluster m' = m_cluster m2 /\
                            m_state m' = m_state m2).
    { destruct Hd as [(e & -> & -> & ->)|[(x & -> & _ & -> & _)|(x & out & -> & _ & -> & _)]];
        [exfalso; eapply updateState_err; eauto|eauto|eauto]. }
    clear Hd Hc. destruct Hgo as (x & -> & -> & ->).
    destruct (updateState_shape _ _ _ _ _ _ _ _ _ Hu) as (_ & Hst & _ & Hnew & _).
    destruct (updateState_done _ _ _ _ _ _ _ _ _ Hu) as [Hcur2 Hleft].
    cbn [m_state m_cluster set_state] in *. rewrite Hst. split; [exact Hcur2|].
    intros s f Hs Hf Hp.
    destruct (decide (s = m_state m)) as [->|Hsm].
    + eapply Hleft; eauto.
    + destruct (m_cluster m2 !! s) as [r|] eqn:Hr; [|reflexivity].
      apply Hnew in Hr as [Hr|(? & _ & _)]; [|contradiction].
      rewrite (Hother s f Hsm Hf Hp) in Hr. discriminate.
Qed.

(** C6 counterexample: [start()] on an instance whose [Active] factory
    needs a [Report] that no rule supplies; the call raises, the cursor
    stays on [Active], and [Active] has no object in the cluster. *)
Lemma failed_dispatch_leaves_current_state_without_object :
  m_cluster Needy.initial = {[ "Idle" := 0 ]} /\ m_state Needy.initial = "Idle" /\
  clusterInvariant Needy.factories Needy.initial /\
  let '(m', res) := Needy.dispatch Switch.start Needy.initial in
  res = inl (CouldNotFindAutoParam "Could not find parameter report anywhere.") /\
  m_state m' = "Active" /\ m_cluster m' !! "Active" = None /\
  ~ clusterInvariant Needy.factories m'.
Proof.
  assert (Hc : m_cluster Needy.initial = {[ "Idle" := 0 ]}) by (vm_compute; reflexivity).
  assert (Hs : m_state Needy.initial = "Idle") by (vm_compute; reflexivity).
  split_and!; [exact Hc|exact Hs| |].
  - unfold clusterInvariant. rewrite Hc, Hs. split.
    + rewrite lookup_singleton_eq. eauto.
    + intros s f Hne _ _. apply lookup_singleton_ne. congruence.
  - destruct (Needy.dispatch Switch.start Needy.initial) as [m' res] eqn:Hd.
    vm_compute in Hd. injection Hd as <- <-.
    split_and!; [reflexivity|reflexivity|reflexivity|].
    intros [[r Hr] _]. vm_compute in Hr. discriminate.
Qed.

Lemma cluster_invariant_after_completed_dispatch_witness :
  construct Switch.factories Switch.protocols "Idle" Switch.theCore =
    (Switch.initial, inr Switch.initial) /\
  clusterInvariant Switch.factories Switch.initial /\
  Switch.dispatch Switch.start Switch.initial = (switchStarted, inr (VRef 0)) /\
  completed (inr (VRef 0)) /\
  clusterInvariant Switch.factories switchStarted /\
  construct Needy.factories Switch.protocols "Idle" Switch.theCore =
    (Needy.initial, inr Needy.initial) /\
  clusterHasFactories Needy.factories Needy.initial /\
  ~ completed (inl (CouldNotFindAutoParam "Could not find parameter report anywhere.")) /\
  is_Some (m_cluster Needy.initial !! m_state Needy.initial) /\
  let '(m', res) := Needy.dispatch Switch.start Needy.initial in
  m_state m' = (outputForInput Switch.table (m_state Needy.initial) (in_name Switch.start)).1 /\
  m_cluster m' = m_cluster Needy.initial /\
  m_cluster m' !! m_state m' = None.
Proof.
  assert (HN0 : construct Needy.factories Switch.protocols "Idle" Switch.theCore =
                  (Needy.initial, inr Needy.initial)) by (vm_compute; reflexivity).
  assert (HNf := proj1 (proj2 (proj2 cluster_invariant_after_completed_dispatch)) _ _ _ _ _ HN0).
  assert (HNd : ~ completed (inl (CouldNotFindAutoParam "Could not find parameter report anywhere.")))
    by (simpl; auto).
  assert (HNs : is_Some (m_cluster Needy.initial !! m_state Needy.initial))
    by (vm_compute; eexists; reflexivity).
  assert (H0 : construct Switch.factories Switch.protocols "Idle" Switch.theCore =
                 (Switch.initial, inr Switch.initial)) by (vm_compute; reflexivity).
  assert (H1 : Switch.dispatch Switch.start Switch.initial = (switchStarted, inr (VRef 0)))
    by (vm_compute; reflexivity).
  assert (Hi := proj1 cluster_invariant_after_completed_dispatch _ _ _ _ _ H0).
  split_and!; [exact H0|exact Hi|exact H1|exact I|..].
  - exact (proj1 (proj2 cluster_invariant_after_completed_dispatch) _ _ _ _ _ _ _ _ _ _ Hi H1 I).
  - exact HN0.
  - exact HNf.
  - exact HNd.
  - exact HNs.
  - destruct (Needy.dispatch Switch.start Needy.initial) as [m' res] eqn:Hd.
    assert (He : res = inl (CouldNotFindAutoParam "Could not find parameter report anywhere."))
      by (vm_compute in Hd; congruence).
    subst res.
    apply (proj2 (proj2 (proj2 (proj2 cluster_invariant_after_completed_dispatch)))
             _ _ _ _ _ _ _ Needy.initial _ _ HNf HNs Hd).
    exact (fun H => H).
Defined.

Lemma dispatch_shape sf au ps co i a kw m m' res :
  _bindableInputMethod sf au ps co i a kw m = (m', res) ->
  m_next m <= m_next m' /\
  (forall s r, m_cluster m' !! s = Some r ->
     m_cluster m !! s = Some r \/ (r = m_next m /\ m_cluster m !! s = None)) /\
  (forall s r, m_cluster m !! s = Some r -> m_cluster m' !! s = None ->
     exists f, sf !! s = Some f /\ f_persist f = false) /\
  exists evs, m_log m' = m_log m ++ evs /\
    forall n r c, EvBuild n r c ∈ evs ->
      exists T f, m_cluster m !! T = None /\ sf !! T = Some f /\ n = f_name f.
Proof.
  intros Hd. apply dispatch_cases in Hd.
  destruct Hd as [(_ & -> & _)|(rS & m2 & res2 & HS & Hu & Hd)].
  { split_and!; [lia|eauto|intros s r H1 H2; congruence|].
    exists []. split; [symmetry; apply app_nil_r|]. intros n r c Hin.
    apply not_elem_of_nil in Hin. contradiction. }
  destruct (updateState_shape _ _ _ _ _ _ _ _ _ Hu) as (_ & _ & Hnext & Hnew & Hgone).
  destruct (updateState_log _ _ _ _ _ _ _ _ _ Hu) as (evs & Hlog & Hbuilds).
  cbn [m_state m_cluster m_next m_log set_state] in *.
  assert (Hm' : m_cluster m' = m_cluster m2 /\ m_next m' = m_next m2 /\
                exists post, m_log m' = m_log m2 ++ post /\
                  forall n r c, EvBuild n r c ∉ post).
  { destruct Hd as [(e & _ & -> & _)|[(x & _ & _ & -> & _)|(x & out & _ & _ & -> & _)]].
    - split_and!; [reflexivity|reflexivity|]. exists []. split; [symmetry; apply app_nil_r|].
      intros n r c Hin. apply not_elem_of_nil in Hin. contradiction.
    - split_and!; [reflexivity|reflexivity|]. exists []. split; [symmetry; apply app_nil_r|].
      intros n r c Hin. apply not_elem_of_nil in Hin. contradiction.
    - split_and!; [reflexivity|reflexivity|]. exists [EvOutput rS out]. split; [reflexivity|].
      intros n r c Hin. apply list_elem_of_singleton in Hin. discriminate. }
  destruct Hm' as (Hcl & Hnx & post & Hlog' & Hpost).
  rewrite Hcl, Hnx. split_and!.
  - exact Hnext.
  - intros s r Hr. apply Hnew in Hr as [Hr|(_ & -> & Hr)]; auto.
  - intros s r H1 H2. destruct (Hgone s r H1 H2) as (_ & _ & f & Hf & Hp). eauto.
  - exists (evs ++ post). split; [rewrite Hlog', Hlog, app_assoc; reflexivity|].
    intros n r c Hin. apply elem_of_app in Hin as [Hin|Hin]; [|apply Hpost in Hin; contradiction].
    destruct (Hbuilds n r c Hin) as (HT & _ & _ & f & Hf & ->). eauto.
Qed.

Lemma runCalls_preserves (P : machine -> Prop) sf au ps co calls m :
  (forall i a kw m, P m -> P (_bindableInputMethod sf au ps co i a kw m).1) ->
  P m -> P (runCalls sf au ps co calls m).
Proof.
  intros Hstep. revert m. induction calls as [|[[i a] kw] calls IH]; intros m Hm; simpl; auto.
Qed.

Lemma dispatch_leaves sf au ps co i a kw m m' res fS :
  sf !! m_state m = Some fS -> f_persist fS = false ->
  (outputForInput au (m_state m) (in_name i)).1 <> m_state m ->
  _bindableInputMethod sf au ps co i a kw m = (m', res) ->
  completed res ->
  m_cluster m' !! m_state m = None.
Proof.
  intros Hf Hp Hne Hd Hc. apply dispatch_cases in Hd.
  destruct Hd as [(_ & _ & ->)|(rS & m2 & res2 & HS & Hu & Hd)]; [contradiction|].
  destruct Hd as [(e & -> & -> & ->)|[(x & -> & _ & -> & _)|(x & out & -> & _ & -> & _)]].
  - exfalso. eapply updateState_err; eauto.
  - apply updateState_done in Hu as [_ Hleft]. eapply Hleft; eauto.
  - apply updateState_done in Hu as [_ Hleft]. cbn [m_cluster add_event]. eapply Hleft; eauto.
Qed.

(** C7: the object of a persistent state stays in the cluster under its
    name through any later sequence of calls, and its factory is never
    called again; after a completed dispatch leaves a non-persistent
    state, any object found under that state's name later, after any
    sequence of calls, is a different object. *)
Theorem persistent_reused_nonpersistent_rebuilt :
  (forall sf au ps co S fS r calls m,
     factoriesKeyed sf -> sf !! S = Some fS -> f_persist fS = true ->
     m_cluster m !! S = Some r ->
     m_cluster (runCalls sf au ps co calls m) !! S = Some r /\
     exists evs, m_log (runCalls sf au ps co calls m) = m_log m ++ evs /\
       forall n r' c, EvBuild n r' c ∈ evs -> n <> f_name fS) /\
  (forall sf au ps co fS r0 i a kw m m1 res calls,
     refsBelow m -> m_cluster m !! m_state m = Some r0 ->
     sf !! m_state m = Some fS -> f_persist fS = false ->
     (outputForInput au (m_state m) (in_name i)).1 <> m_state m ->
     _bindableInputMethod sf au ps co i a kw m = (m1, res) -> completed res ->
     forall r, m_cluster (runCalls sf au ps co calls m1) !! m_state m = Some r -> r <> r0).
Proof.
  split.
  - intros sf au ps co S fS r calls m Hkeyed Hf Hp Hr.
    apply (runCalls_preserves (fun m' => m_cluster m' !! S = Some r /\
             exists evs, m_log m' = m_log m ++ evs /\
               forall n r' c, EvBuild n r' c ∈ evs -> n <> f_name fS)).
    + intros i a kw m0 [Hr0 (evs & Hlog & Hevs)].
      destruct (_bindableInputMethod sf au ps co i a kw m0) as [m' res] eqn:Hd. simpl.
      destruct (dispatch_shape _ _ _ _ _ _ _ _ _ _ Hd)
        as (_ & Hnew & Hgone & evs' & Hlog' & Hbuilds).
      split.
      * destruct (m_cluster m' !! S) as [r'|] eqn:Hr'.
        -- apply Hnew in Hr' as [Hr'|(_ & Hr')]; congruence.
        -- destruct (Hgone S r Hr0 Hr') as (f & Hf' & Hp'). congruence.
      * exists (evs ++ evs'). split; [rewrite Hlog', Hlog, app_assoc; reflexivity|].
        intros n r' c Hin. apply elem_of_app in Hin as [Hin|Hin]; [eapply Hevs; eauto|].
        destruct (Hbuilds n r' c Hin) as (T & f & HT & HfT & ->).
        apply Hkeyed in HfT as HT'. apply Hkeyed in Hf as HS'.
        rewrite HT', HS'. intros ->. congruence.
    + split; [exact Hr|]. exists []. split; [symmetry; apply app_nil_r|].
      intros n r' c Hin. apply not_elem_of_nil in Hin. contradiction.
  - intros sf au ps co fS r0 i a kw m m1 res calls Hbelow HS Hf Hp Hne Hd Hc.
    assert (Hleft := dispatch_leaves _ _ _ _ _ _ _ _ _ _ _ Hf Hp Hne Hd Hc).
    destruct (dispatch_shape _ _ _ _ _ _ _ _ _ _ Hd) as (Hnext & _).
    assert (Hlt := Hbelow _ _ HS).
    assert (Hinv : m_cluster (runCalls sf au ps co calls m1) !! m_state m <> Some r0 /\
                   r0 < m_next (runCalls sf au ps co calls m1)).
    { apply (runCalls_preserves (fun m' => m_cluster m' !! m_state m <> Some r0 /\
                                           r0 < m_next m')).
      - intros i' a' kw' m0 [Hno Hlt0].
        destruct (_bindableInputMethod sf au ps co i' a' kw' m0) as [m' res'] eqn:Hd'. simpl.
        destruct (dispatch_shape _ _ _ _ _ _ _ _ _ _ Hd') as (Hnext' & Hnew & _).
        split; [|lia]. intros Hr. apply Hnew in Hr as [Hr|(-> & _)]; [contradiction|lia].
      - split; [rewrite Hleft; discriminate|lia]. }
    intros r Hr ->. destruct Hinv as [Hno _]. contradiction.
Qed.

(** [start()], [stop()], [start()]: [Idle]'s object [0] is kept and its
    factory never called again; the [Active] object after the second
    [start()] is [2], not the first one, [1]. *)
Lemma persistent_reused_nonpersistent_rebuilt_witness :
  let calls := [(Switch.start, [], []); (Switch.stop, [], []); (Switch.start, [], [])] in
  let m1 := (Switch.dispatch Switch.stop switchStarted).1 in
  (m_cluster (runCalls Switch.factories Switch.table Switch.protocols Switch.returnsSelf calls
                Switch.initial) !! "Idle" = Some 0 /\
   exists evs, m_log (runCalls Switch.factories Switch.table Switch.protocols Switch.returnsSelf
                        calls Switch.initial) = m_log Switch.initial ++ evs /\
     forall n r' c, EvBuild n r' c ∈ evs -> n <> "Idle") /\
  m_cluster switchStarted !! "Active" = Some 1 /\
  m_cluster (runCalls Switch.factories Switch.table Switch.protocols Switch.returnsSelf
               [(Switch.start, [], [])] m1) !! "Active" = Some 2 /\
  (forall r, m_cluster (runCalls Switch.factories Switch.table Switch.protocols
                          Switch.returnsSelf [(Switch.start, [], [])] m1) !! "Active" = Some r ->
             r <> 1).
Proof.
  intros calls m1.
  assert (Hkeyed : factoriesKeyed Switch.factories).
  { assert (Hall : map_Forall (fun k f => f_name f = k) Switch.factories)
      by (apply (bool_decide_unpack _); vm_compute; reflexivity).
    intros k f Hk. exact (map_Forall_lookup_1 _ _ _ _ Hall Hk). }
  assert (Hbelow : refsBelow switchStarted).
  { assert (Hall : map_Forall (fun _ r => r < m_next switchStarted) (m_cluster switchStarted))
      by (apply (bool_decide_unpack _); vm_compute; reflexivity).
    intros s r Hs. exact (map_Forall_lookup_1 _ _ _ _ Hall Hs). }
  assert (Hd : Switch.dispatch Switch.stop switchStarted = (m1, inr (VRef 1)))
    by (vm_compute; reflexivity).
  assert (Hne : (outputForInput Switch.table (m_state switchStarted) (in_name Switch.stop)).1 <>
                m_state switchStarted) by (vm_compute; congruence).
  split_and!.
  - exact (proj1 (proj1 persistent_reused_nonpersistent_rebuilt Switch.factories Switch.table
             Switch.protocols Switch.returnsSelf "Idle" (Factory "Idle" Switch.tyIdle [] true) 0
             calls Switch.initial Hkeyed eq_refl eq_refl eq_refl)).
  - exact (proj2 (proj1 persistent_reused_nonpersistent_rebuilt Switch.factories Switch.table
             Switch.protocols Switch.returnsSelf "Idle" (Factory "Idle" Switch.tyIdle [] true) 0
             calls Switch.initial Hkeyed eq_refl eq_refl eq_refl)).
  - vm_compute. reflexivity.
  - vm_compute. reflexivity.
  - exact (proj2 persistent_reused_nonpersistent_rebuilt Switch.factories Switch.table
             Switch.protocols Switch.returnsSelf (Factory "Active" Switch.tyActive [] false) 1
             Switch.stop [] [] switchStarted m1 (inr (VRef 1)) [(Switch.start, [], [])]
             Hbelow eq_refl eq_refl eq_refl Hne Hd I).
Defined.

(* ------------------------------------------------------------------ *)
(** ** Further properties of the code *)

Ltac decide_by_eval :=
  match goal with |- ?P => apply (bool_decide_unpack P); vm_compute; exact I end.

(** An instance whose cursor is on a state without an object. *)
Lemma dispatch_without_current_object sf au ps co i a kw m :
  m_cluster m !! m_state m = None ->
  _bindableInputMethod sf au ps co i a kw m = (m, inl (KeyError (m_state m))).
Proof.
  intros H. unfold _bindableInputMethod. unfold_M. rewrite H. reflexivity.
Qed.

Lemma runCalls_without_current_object sf au ps co calls m :
  m_cluster m !! m_state m = None -> runCalls sf au ps co calls m = m.
Proof.
  intros H. induction calls as [|[[i a] kw] calls IH]; simpl; [reflexivity|].
  rewrite dispatch_without_current_object by exact H. exact IH.
Qed.

(** X13: an instance whose current state has no object in the cluster
    rejects every input with [KeyError] on the current state name,
    without any change, so any sequence of calls leaves it as it is. *)
Theorem instance_without_current_object_rejects_all_input sf au ps co calls m :
  m_cluster m !! m_state m = None ->
  (forall i a kw, _bindableInputMethod sf au ps co i a kw m = (m, inl (KeyError (m_state m)))) /\
  runCalls sf au ps co calls m = m.
Proof.
  intros H. split; [intros; apply dispatch_without_current_object; exact H|].
  apply runCalls_without_current_object. exact H.
Qed.

Lemma reentry_ignores_call_arguments sf ps old a kw tm m r :
  m_cluster m !! m_state m = Some r ->
  _updateState sf ps old a kw tm m = _updateState sf ps old [] [] None m.
Proof.
  intros H. unfold _updateState. unfold_M. rewrite H. reflexivity.
Qed.

(** X14: when the target state already has an object, the call's
    arguments do not affect the state update: the instance after the
    call is the one the same input with no arguments gives. *)
Theorem dispatch_arguments_only_reach_output sf au ps co i a kw m r :
  m_cluster m !! (outputForInput au (m_state m) (in_name i)).1 = Some r ->
  (_bindableInputMethod sf au ps co i a kw m).1 = (_bindableInputMethod sf au ps co i [] [] m).1.
Proof.
  intros H. unfold _bindableInputMethod. unfold_M.
  destruct (m_cluster m !! m_state m) as [rS|]; [|reflexivity].
  rewrite transition_eq.
  rewrite (reentry_ignores_call_arguments sf ps _ a kw (Some i) _ r) by exact H.
  rewrite (reentry_ignores_call_arguments sf ps _ [] [] (Some i) _ r) by exact H.
  destruct (_updateState _ _ _ _ _ _ _) as [m2 [e|x]]; [reflexivity|].
  destruct (outputForInput au (m_state m) (in_name i)).2; reflexivity.
Qed.

(** X15: an input whose transition leads back to the current state
    keeps the cursor, the cluster and the heap; it only records the
    output call, or raises the unhandled-input error with no change. *)
Theorem self_loop_keeps_state_object sf au ps co i a kw m m' res r f :
  m_cluster m !! m_state m = Some r ->
  sf !! m_state m = Some f ->
  (outputForInput au (m_state m) (in_name i)).1 = m_state m ->
  _bindableInputMethod sf au ps co i a kw m = (m', res) ->
  m_state m' = m_state m /\ m_cluster m' = m_cluster m /\ m_heap m' = m_heap m /\
  m_next m' = m_next m /\
  ((res = inl (RuntimeError (unhandledMsg (m_state m) (in_name i))) /\ m_log m' = m_log m) \/
   exists out, res = inr (co (m_heap m) r out a kw) /\ m_log m' = m_log m ++ [EvOutput r out]).
Proof.
  intros H Hf Hloop. unfold _bindableInputMethod. unfold_M. rewrite H, transition_eq, Hloop.
  unfold _updateState. unfold_M. cbn [m_state m_cluster set_state]. rewrite Hf, H.
  case_decide; [contradiction|].
  destruct (outputForInput au (m_state m) (in_name i)).2 as [out|];
    intros Hd; injection Hd as <- <-; cbn; split_and!; try reflexivity; eauto.
Qed.

(** X16: an input whose target state has no factory raises [KeyError]
    on that name after moving the cursor to it; the cluster is
    unchanged, and from then on every call leaves the instance as it
    is. *)
Theorem undeclared_target_wedges_instance sf au ps co i a kw m calls :
  (forall s r, m_cluster m !! s = Some r -> is_Some (sf !! s)) ->
  is_Some (m_cluster m !! m_state m) ->
  sf !! (outputForInput au (m_state m) (in_name i)).1 = None ->
  let m' := (_bindableInputMethod sf au ps co i a kw m).1 in
  (_bindableInputMethod sf au ps co i a kw m).2 =
    inl (KeyError (outputForInput au (m_state m) (in_name i)).1) /\
  m_state m' = (outputForInput au (m_state m) (in_name i)).1 /\
  m_cluster m' = m_cluster m /\
  runCalls sf au ps co calls m' = m'.
Proof.
  intros Hkeys [rS HS] HT m'.
  assert (Hd : _bindableInputMethod sf au ps co i a kw m =
               (set_state (outputForInput au (m_state m) (in_name i)).1 m,
                inl (KeyError (outputForInput au (m_state m) (in_name i)).1))).
  { unfold _bindableInputMethod. unfold_M. rewrite HS, transition_eq.
    unfold _updateState. unfold_M. cbn [m_state set_state]. rewrite HT. reflexivity. }
  subst m'. rewrite Hd. cbn. split_and!; [reflexivity..|].
  apply runCalls_without_current_object. cbn.
  destruct (m_cluster m !! (outputForInput au (m_state m) (in_name i)).1) eqn:Hc; [|reflexivity].
  destruct (Hkeys _ _ Hc) as [? Hs]. congruence.
Qed.


(** After the failed [start()] of the [Needy] machine the cursor is on
    [Active], which has no object: [stop()] then [start()] change
    nothing. *)
Lemma instance_without_current_object_rejects_all_input_witness :
  m_cluster (Needy.dispatch Switch.start Needy.initial).1 !!
    m_state (Needy.dispatch Switch.start Needy.initial).1 = None /\
  runCalls Needy.factories Switch.table Switch.protocols Switch.returnsSelf
    [(Switch.stop, [], []); (Switch.start, [], [])] (Needy.dispatch Switch.start Needy.initial).1
  = (Needy.dispatch Switch.start Needy.initial).1.
Proof.
  assert (H : m_cluster (Needy.dispatch Switch.start Needy.initial).1 !!
                m_state (Needy.dispatch Switch.start Needy.initial).1 = None)
    by (vm_compute; reflexivity).
  split; [exact H|].
  apply (instance_without_current_object_rejects_all_input Needy.factories Switch.table
           Switch.protocols Switch.returnsSelf _ _ H).
Defined.

(** [stop()] from the started switch returns to the persistent [Idle],
    whose object [0] is in the cluster. *)
Lemma dispatch_arguments_only_reach_output_witness :
  m_cluster switchStarted !! (outputForInput Switch.table (m_state switchStarted) (in_name Switch.stop)).1
    = Some 0 /\
  (_bindableInputMethod Switch.factories Switch.table Switch.protocols Switch.returnsSelf Switch.stop
     [VInt 1] [("x", VInt 2)] switchStarted).1 =
  (_bindableInputMethod Switch.factories Switch.table Switch.protocols Switch.returnsSelf Switch.stop
     [] [] switchStarted).1.
Proof.
  assert (H : m_cluster switchStarted !!
                (outputForInput Switch.table (m_state switchStarted) (in_name Switch.stop)).1 = Some 0)
    by (vm_compute; reflexivity).
  split; [exact H|].
  apply (dispatch_arguments_only_reach_output _ _ _ _ _ _ _ _ _ H).
Defined.


(** In [ErrorState], the unhandled [stop()] loops on [ErrorState] and
    leaves the log as it was. *)
Lemma self_loop_keeps_state_object_witness :
  m_state switchErrored = "ErrorState" /\
  m_cluster switchErrored !! m_state switchErrored = Some 1 /\
  m_log (Switch.dispatch Switch.stop switchErrored).1 = m_log switchErrored.
Proof.
  assert (Hs : m_state switchErrored = "ErrorState") by (vm_compute; reflexivity).
  assert (H1 : m_cluster switchErrored !! m_state switchErrored = Some 1) by (vm_compute; reflexivity).
  assert (H2 : Switch.factories !! m_state switchErrored =
               Some (Factory "ErrorState" Switch.tyErrorState [] false)) by (vm_compute; reflexivity).
  assert (H3 : (outputForInput Switch.table (m_state switchErrored) (in_name Switch.stop)).1 =
               m_state switchErrored) by (vm_compute; reflexivity).
  assert (H4 : _bindableInputMethod Switch.factories Switch.table Switch.protocols Switch.returnsSelf
                 Switch.stop [] [] switchErrored =
               ((Switch.dispatch Switch.stop switchErrored).1, (Switch.dispatch Switch.stop switchErrored).2))
    by (vm_compute; reflexivity).
  split; [exact Hs|]. split; [exact H1|].
  destruct (self_loop_keeps_state_object _ _ _ _ _ _ _ _ _ _ _ _ H1 H2 H3 H4)
    as (_ & _ & _ & _ & [[_ Hlog]|[out [Hres _]]]).
  - exact Hlog.
  - vm_compute in Hres. discriminate.
Defined.

(** The switch without a factory for [Active]: [start()] wedges it. *)
Lemma undeclared_target_wedges_instance_witness :
  (forall s r, m_cluster Switch.initial !! s = Some r -> is_Some (delete "Active" Switch.factories !! s)) /\
  is_Some (m_cluster Switch.initial !! m_state Switch.initial) /\
  delete "Active" Switch.factories !! (outputForInput Switch.table (m_state Switch.initial) (in_name Switch.start)).1
    = None /\
  runCalls (delete "Active" Switch.factories) Switch.table Switch.protocols Switch.returnsSelf
    [(Switch.stop, [], [])]
    (_bindableInputMethod (delete "Active" Switch.factories) Switch.table Switch.protocols
       Switch.returnsSelf Switch.start [] [] Switch.initial).1
  = (_bindableInputMethod (delete "Active" Switch.factories) Switch.table Switch.protocols
       Switch.returnsSelf Switch.start [] [] Switch.initial).1.
Proof.
  assert (Hc : m_cluster Switch.initial = {[ "Idle" := 0 ]}) by (vm_compute; reflexivity).
  assert (Hk : forall s r, m_cluster Switch.initial !! s = Some r ->
                 is_Some (delete "Active" Switch.factories !! s)).
  { intros s r Hs. rewrite Hc in Hs. apply lookup_singleton_Some in Hs as [<- _].
    exists (Factory "Idle" Switch.tyIdle [] true). vm_compute. reflexivity. }
  assert (HS : is_Some (m_cluster Switch.initial !! m_state Switch.initial)).
  { exists 0. vm_compute. reflexivity. }
  assert (HT : delete "Active" Switch.factories !!
                 (outputForInput Switch.table (m_state Switch.initial) (in_name Switch.start)).1 = None)
    by (vm_compute; reflexivity).
  split; [exact Hk|]. split; [exact HS|]. split; [exact HT|].
  apply (undeclared_target_wedges_instance _ _ _ _ _ _ _ _ _ Hk HS HT).
Defined.


Lemma newStateFactoryOf_last_enter cls h pre s post :
  h_returnMeta h = pre ++ MetaEnter s :: post ->
  (forall s', MetaEnter s' ∉ post) ->
  newStateFactoryOf cls h = s.
Proof.
  intros Hm Hpost. unfold newStateFactoryOf. rewrite Hm, foldl_app. simpl.
  clear Hm. revert Hpost. generalize s.
  induction post as [|x post IH]; intros s0 Hpost; [reflexivity|].
  destruct x as [s'|]; simpl.
  - exfalso. apply (Hpost s'). apply elem_of_cons. left. reflexivity.
  - apply IH. intros s' Hin. apply (Hpost s'). apply elem_of_cons. right. exact Hin.
Qed.

Lemma newStateFactoryOf_no_enter cls h :
  (forall s', MetaEnter s' ∉ h_returnMeta h) ->
  newStateFactoryOf cls h = match h_enter h with Some e => e | None => cls end.
Proof.
  intros Hno. unfold newStateFactoryOf.
  revert Hno. generalize (match h_enter h with Some e => e | None => cls end).
  induction (h_returnMeta h) as [|x l IH]; intros s0 Hno; [reflexivity|].
  destruct x as [s'|]; simpl.
  - exfalso. apply (Hno s'). apply elem_of_cons. left. reflexivity.
  - apply IH. intros s' Hin. apply (Hno s'). apply elem_of_cons. right. exact Hin.
Qed.

Lemma stateInputs_app cls l1 l2 :
  _stateInputs cls (l1 ++ l2) = _stateInputs cls l1 ++ _stateInputs cls l2.
Proof.
  induction l1 as [|[n [h|]] l1 IH]; simpl; rewrite ?IH; reflexivity.
Qed.

(** X1: [_stateInputs] skips attributes without [__automat_handler__];
    a handler's target is the last [Enter] item of its return
    annotation, whatever [enter] says; without such items it is the
    [enter] argument of [handle] or of a later [.enter(...)], and the
    state class itself when there is none. *)
Theorem handler_enter_resolution cls out input enter new target attrs1 other attrs2 pre s post :
  (forall s', MetaEnter s' ∉ post) ->
  _stateInputs cls (attrs1 ++ (other, None) :: attrs2) = _stateInputs cls (attrs1 ++ attrs2) /\
  _stateInputs cls [(out, Some (handle input enter (pre ++ MetaEnter s :: post)))]
    = [(out, input, s)] /\
  _stateInputs cls [(out, Some (doSetEnter (handle input enter (pre ++ MetaEnter s :: post)) new))]
    = [(out, input, s)] /\
  _stateInputs cls [(out, Some (handle input None post))] = [(out, input, cls)] /\
  _stateInputs cls [(out, Some (handle input (Some target) post))] = [(out, input, target)] /\
  _stateInputs cls [(out, Some (doSetEnter (handle input enter post) (Some target)))]
    = [(out, input, target)].
Proof.
  intros Hpost. split; [|split; [|split; [|split; [|split]]]].
  - rewrite !stateInputs_app. reflexivity.
  - simpl. erewrite newStateFactoryOf_last_enter by (simpl; reflexivity || exact Hpost). reflexivity.
  - simpl. erewrite newStateFactoryOf_last_enter by (simpl; reflexivity || exact Hpost). reflexivity.
  - simpl. rewrite newStateFactoryOf_no_enter by exact Hpost. reflexivity.
  - simpl. rewrite newStateFactoryOf_no_enter by exact Hpost. reflexivity.
  - simpl. rewrite newStateFactoryOf_no_enter by exact Hpost. reflexivity.
Qed.

(** Two [Enter] items: the last, [Done], wins over [enter=Active]. *)
Lemma handler_enter_resolution_witness :
  (forall s', MetaEnter s' ∉ [MetaOther]) /\
  _stateInputs "Idle" [("begin", Some (handle "start" (Some "Active") [MetaEnter "Report"; MetaEnter "Done"; MetaOther]))]
    = [("begin", "start", "Done")].
Proof.
  assert (H : forall s', MetaEnter s' ∉ [MetaOther]).
  { intros s' Hin. apply list_elem_of_singleton in Hin. discriminate. }
  split; [exact H|].
  apply (handler_enter_resolution "Idle" "begin" "start" (Some "Active") None "Active" [] "x" []
           [MetaEnter "Report"] "Done" [MetaOther] H).
Defined.


Lemma addStates_table ps sds au sf au' sf' :
  addStates ps sds au sf = inr (au', sf') -> sf' = declareStates sds sf.
Proof.
  revert au sf. induction sds as [|sd sds IH]; intros au sf H; simpl in H.
  - injection H as <- <-. reflexivity.
  - destruct (addHandlers _ _ _ _) as [e|au1]; [discriminate|].
    apply IH in H. exact H.
Qed.

Lemma declareStates_lookup sds sf k :
  declareStates sds sf !! k =
  match last (filter (fun sd => ty_name (sd_cls sd) = k) sds) with
  | Some sd => Some (stateFactoryOf sd)
  | None => sf !! k
  end.
Proof.
  revert sf. induction sds as [|sd sds IH]; intros sf; [reflexivity|].
  unfold declareStates in *. simpl. rewrite IH. rewrite filter_cons.
  destruct (last (filter _ sds)) as [sd'|] eqn:Hl.
  - case_decide; [rewrite last_cons|]; rewrite Hl; reflexivity.
  - case_decide as Hk.
    + rewrite last_cons, Hl. subst k. apply lookup_insert_eq.
    + rewrite Hl. apply lookup_insert_ne. exact Hk.
Qed.

Lemma addProtocols_table protocols sds au sf au' sf' k :
  protocols <> [] ->
  addProtocols protocols sds au sf = inr (au', sf') ->
  sf' !! k =
  match last (filter (fun sd => ty_name (sd_cls sd) = k) sds) with
  | Some sd => Some (stateFactoryOf sd)
  | None => sf !! k
  end.
Proof.
  revert au sf. induction protocols as [|p ps IH]; intros au sf Hne H; [congruence|].
  simpl in H. destruct (addStates p sds au sf) as [e|[au1 sf1]] eqn:Hs; [discriminate|].
  apply addStates_table in Hs. subst sf1.
  destruct ps as [|p' ps'].
  - simpl in H. injection H as <- <-. apply declareStates_lookup.
  - rewrite (IH au1 _ ltac:(discriminate) H), declareStates_lookup.
    destruct (last _); reflexivity.
Qed.

(** X2: a successful [buildClass] marks the builder as built, starts
    the machine in the first declared state class, and stores under
    each name the last declaration of that name, the error state
    counting as declared last. *)
Theorem built_factory_table b b' au sf init k :
  b_protocols b <> [] ->
  buildClass b = (b', inr (au, sf, init)) ->
  b_built b' = true /\
  (exists first rest, b_stateClasses b = first :: rest /\ init = ty_name (sd_cls first)) /\
  sf !! k = stateFactoryOf <$>
    last (filter (fun sd => ty_name (sd_cls sd) = k) (b_stateClasses b ++ [b_errorState b])).
Proof.
  intros Hne H. unfold buildClass in H.
  destruct (b_built b); [discriminate|].
  destruct (addProtocols _ _ _ _) as [e|[au1 sf1]] eqn:Hp; [discriminate|].
  destruct (b_stateClasses b) as [|first rest] eqn:Hsc; [discriminate|].
  injection H as <- <- <- <-.
  split; [reflexivity|]. split; [eauto|].
  rewrite (addProtocols_table _ _ _ _ _ _ k Hne Hp), <- Hsc.
  destruct (last _); reflexivity.
Qed.

(** X3: [buildClass] marks the builder as built even when it raises,
    so a second [buildClass] always raises [RuntimeError]. *)
Theorem build_only_once b :
  b_built (buildClass b).1 = true /\
  (buildClass (buildClass b).1).2 = inl (RuntimeError "You can only build once, after that use the class").
Proof.
  unfold buildClass. destruct (b_built b) eqn:Hb.
  - simpl. rewrite Hb. split; reflexivity.
  - destruct (addProtocols _ _ _ _) as [e|[au sf]]; [simpl; split; reflexivity|].
    destruct (b_stateClasses b); simpl; split; reflexivity.
Qed.

(** The Idle/Active switch builds to its table and factories. *)
Lemma built_factory_table_witness :
  b_protocols Switch.switchBuilder <> [] /\
  buildClass Switch.switchBuilder =
    (Builder [Switch.idleDecl; Switch.activeDecl] Switch.errorDecl [["start"; "stop"]] true,
     inr (Switch.table, Switch.factories, "Idle")) /\
  Switch.factories !! "ErrorState" = Some (stateFactoryOf Switch.errorDecl).
Proof.
  assert (Hne : b_protocols Switch.switchBuilder <> []) by discriminate.
  assert (Hb : buildClass Switch.switchBuilder =
    (Builder [Switch.idleDecl; Switch.activeDecl] Switch.errorDecl [["start"; "stop"]] true,
     inr (Switch.table, Switch.factories, "Idle"))) by (vm_compute; reflexivity).
  split; [exact Hne|]. split; [exact Hb|].
  destruct (built_factory_table _ _ _ _ _ "ErrorState" Hne Hb) as [_ [_ Hk]].
  rewrite Hk. vm_compute. reflexivity.
Defined.

Lemma insertInputs_lookup pn l (ns : gmap string classAttr) n :
  foldl (fun ns eachInput => <[eachInput := ClsInput pn eachInput]> ns) ns l !! n =
  if decide (n ∈ l) then Some (ClsInput pn n) else ns !! n.
Proof.
  revert ns. induction l as [|x l IH]; intros ns; simpl.
  - reflexivity.
  - rewrite IH. case_decide as Hin; case_decide as Hin'.
    + reflexivity.
    + exfalso. apply Hin'. apply elem_of_cons. right. exact Hin.
    + apply elem_of_cons in Hin' as [->|Hin']; [apply lookup_insert_eq|contradiction].
    + rewrite lookup_insert_ne; [reflexivity|]. intros ->. apply Hin'. apply elem_of_cons. left. reflexivity.
Qed.

Lemma inputNamespace_lookup pd ps ns n :
  inputNamespace pd ps ns !! n =
  match last (filter (fun p => n ∈ possibleInputsOf pd p) ps) with
  | Some p => Some (ClsInput (pr_name p) n)
  | None => ns !! n
  end.
Proof.
  revert ns. induction ps as [|p ps IH]; intros ns; [reflexivity|].
  simpl. rewrite IH, filter_cons, insertInputs_lookup.
  destruct (last (filter _ ps)) as [p'|] eqn:Hl.
  - case_decide; [rewrite last_cons|]; rewrite Hl; reflexivity.
  - case_decide as Hin; [rewrite last_cons|]; rewrite Hl; reflexivity.
Qed.

Lemma commonNamespace_lookup md sp cms acc d n :
  commonNamespace md sp cms acc = inr d ->
  d !! n =
  match last (filter (fun e => e.1 = n) cms) with
  | Some (_, (impl, ip)) => Some (ClsCommon impl ip)
  | None => acc !! n
  end.
Proof.
  revert acc. induction cms as [|[cn [impl ip]] cms IH]; intros acc H; simpl in H.
  - injection H as <-. reflexivity.
  - case_decide; [|discriminate]. rewrite (IH _ H), filter_cons.
    destruct (last (filter _ cms)) as [[cn' [impl' ip']]|] eqn:Hl.
    + case_decide; [rewrite last_cons|]; rewrite Hl; reflexivity.
    + case_decide as Hk; simpl in Hk.
      * rewrite last_cons, Hl. subst n. apply lookup_insert_eq.
      * rewrite Hl. apply lookup_insert_ne. exact Hk.
Qed.

(** X4: in the class dictionary a common method wins over an input of
    the same name; otherwise a name is the input method of the last
    protocol in [[public, *private]] that declares it, and
    [_stateFactories] is the factory table unless an input shadows
    it. *)
Theorem class_namespace_lookup pd md sp privs cms d n :
  classNamespace pd md sp privs cms = inr d ->
  d !! n =
  match last (filter (fun e => e.1 = n) cms) with
  | Some (_, (impl, ip)) => Some (ClsCommon impl ip)
  | None =>
      match last (filter (fun p => n ∈ possibleInputsOf pd p) (sp :: privs)) with
      | Some p => Some (ClsInput (pr_name p) n)
      | None => if decide (n = "_stateFactories") then Some ClsStateFactories else None
      end
  end.
Proof.
  unfold classNamespace. destruct (commonNamespace md sp cms ∅) as [e|cm] eqn:Hc; [discriminate|].
  intros H.
  assert (d = cm ∪ inputNamespace pd (sp :: privs) {[ "_stateFactories" := ClsStateFactories ]})
    as -> by congruence.
  rewrite lookup_union, (commonNamespace_lookup _ _ _ _ _ n Hc), (inputNamespace_lookup pd (sp :: privs)).
  destruct (last (filter (fun e => e.1 = n) cms)) as [[? [impl ip]]|].
  - apply union_Some_l.
  - rewrite lookup_empty, (left_id_L None (∪)). destruct (last _); [reflexivity|].
    case_decide as Hk.
    + subst n. rewrite lookup_singleton_eq. reflexivity.
    + rewrite lookup_singleton_ne by congruence. reflexivity.
Qed.

Lemma commonNamespace_missing md sp pre n x post acc :
  Forall (fun e => e.1 ∈ pr_dir sp ++ md) pre ->
  n ∉ pr_dir sp ++ md ->
  commonNamespace md sp (pre ++ (n, x) :: post) acc = inl (AttributeError n).
Proof.
  intros Hpre Hn. revert acc. induction Hpre as [|[cn [impl ip]] pre Hcn Hpre IH]; intros acc; simpl.
  - destruct x as [impl ip]. case_decide; [contradiction|reflexivity].
  - simpl in Hcn. case_decide; [apply IH|contradiction].
Qed.

Lemma commonNamespace_present md sp cms acc :
  Forall (fun e => e.1 ∈ pr_dir sp ++ md) cms ->
  exists d, commonNamespace md sp cms acc = inr d.
Proof.
  intros Hall. revert acc. induction Hall as [|[cn [impl ip]] cms Hcn Hall IH]; intros acc; simpl.
  - eexists. reflexivity.
  - simpl in Hcn. case_decide; [apply IH|contradiction].
Qed.

(** X5: building the class dictionary raises [AttributeError] on the
    first registered common method whose name [getattr] does not find on
    the public protocol (neither an attribute of the protocol nor of its
    metaclass), whatever the private protocols declare; when [getattr]
    finds every name, it succeeds. *)
Theorem common_method_needs_public_input pd md sp privs pre n x post :
  Forall (fun e => e.1 ∈ pr_dir sp ++ md) pre ->
  (n ∉ pr_dir sp ++ md ->
   classNamespace pd md sp privs (pre ++ (n, x) :: post) = inl (AttributeError n)) /\
  (Forall (fun e => e.1 ∈ pr_dir sp ++ md) ((n, x) :: post) ->
   exists d, classNamespace pd md sp privs (pre ++ (n, x) :: post) = inr d).
Proof.
  intros Hpre. split.
  - intros Hn. unfold classNamespace. rewrite commonNamespace_missing by assumption. reflexivity.
  - intros Hpost. unfold classNamespace.
    destruct (commonNamespace_present md sp (pre ++ (n, x) :: post) ∅) as [d Hd].
    { apply Forall_app. split; assumption. }
    rewrite Hd. eexists. reflexivity.
Qed.

Lemma evalSuppliers_app cl l1 l2 acc :
  evalSuppliers cl (l1 ++ l2) acc =
  match evalSuppliers cl l1 acc with inl e => inl e | inr a => evalSuppliers cl l2 a end.
Proof.
  revert acc. induction l1 as [|[n vb] l1 IH]; intros acc; [reflexivity|].
  simpl. destruct (runValueBuilder cl vb); [reflexivity|]. apply IH.
Qed.

Lemma evalSuppliers_acc cl l acc :
  evalSuppliers cl l acc =
  match evalSuppliers cl l ∅ with inl e => inl e | inr g => inr (g ∪ acc) end.
Proof.
  revert acc. induction l as [|[n vb] l IH]; intros acc; simpl.
  - rewrite (left_id_L ∅ (∪)). reflexivity.
  - destruct (runValueBuilder cl vb) as [e|v]; [reflexivity|].
    rewrite (IH (<[n:=v]> acc)), (IH (<[n:=v]> ∅)).
    destruct (evalSuppliers cl l ∅) as [e|g]; [reflexivity|].
    rewrite insert_union_singleton_l, (insert_union_singleton_l ∅), (right_id_L ∅ (∪)).
    rewrite (assoc_L (∪)). reflexivity.
Qed.

Lemma evalSuppliers_other cl l acc g k :
  evalSuppliers cl l acc = inr g -> k ∉ l.*1 -> g !! k = acc !! k.
Proof.
  revert acc. induction l as [|[n vb] l IH]; intros acc H Hk; simpl in H.
  - injection H as <-. reflexivity.
  - destruct (runValueBuilder cl vb); [discriminate|].
    rewrite (IH _ H).
    + apply lookup_insert_ne. intros ->. apply Hk. apply elem_of_cons. left. reflexivity.
    + intros Hin. apply Hk. apply elem_of_cons. right. exact Hin.
Qed.

Lemma valueSuppliersFor_names sc sf ps fs n :
  Forall (fun s => s.1 = n) (valueSuppliersFor sc sf ps fs n).
Proof.
  unfold valueSuppliersFor. destruct (find_param n fs); [|constructor].
  repeat apply Forall_app_2; repeat case_decide; repeat constructor.
Qed.

Lemma valueSuppliersFor_not sc sf ps fs n k :
  k <> n -> k ∉ (valueSuppliersFor sc sf ps fs n).*1.
Proof.
  intros Hk Hin. apply list_elem_of_fmap in Hin as [s [-> Hs]].
  pose proof (valueSuppliersFor_names sc sf ps fs n) as Hall.
  rewrite Forall_forall in Hall. apply Hk, Hall, Hs.
Qed.

Lemma suppliers_order_independent sc sf ps fs cl o1 o2 :
  o1 ≡ₚ o2 -> NoDup o1 -> forall acc,
  let r1 := evalSuppliers cl (o1 ≫= valueSuppliersFor sc sf ps fs) acc in
  let r2 := evalSuppliers cl (o2 ≫= valueSuppliersFor sc sf ps fs) acc in
  (exists e1 e2, r1 = inl e1 /\ r2 = inl e2) \/ r1 = r2.
Proof.
  induction 1 as [|x l1 l2 Hp IH|x y l|l1 l2 l3 H12 IH12 H23 IH23]; intros Hnd acc; simpl.
  - right. reflexivity.
  - rewrite !evalSuppliers_app. destruct (evalSuppliers cl _ acc) as [e|a].
    + left. eauto.
    + apply NoDup_cons in Hnd as [_ Hnd]. apply (IH Hnd a).
  - apply NoDup_cons in Hnd as [Hyx _]. assert (Hxy : x <> y) by (intros ->; apply Hyx; apply elem_of_cons; left; reflexivity).
    rewrite !evalSuppliers_app.
    rewrite (evalSuppliers_acc cl (valueSuppliersFor sc sf ps fs x) acc).
    rewrite (evalSuppliers_acc cl (valueSuppliersFor sc sf ps fs y) acc).
    destruct (evalSuppliers cl (valueSuppliersFor sc sf ps fs x) ∅) as [ex|gx] eqn:Hx;
    destruct (evalSuppliers cl (valueSuppliersFor sc sf ps fs y) ∅) as [ey|gy] eqn:Hy;
    rewrite ?evalSuppliers_app.
    + left. eauto.
    + rewrite (evalSuppliers_acc cl (valueSuppliersFor sc sf ps fs x) (gy ∪ acc)), Hx. left. eauto.
    + rewrite (evalSuppliers_acc cl (valueSuppliersFor sc sf ps fs y) (gx ∪ acc)), Hy. left. eauto.
    + rewrite (evalSuppliers_acc cl (valueSuppliersFor sc sf ps fs y) (gx ∪ acc)),
        (evalSuppliers_acc cl (valueSuppliersFor sc sf ps fs x) (gy ∪ acc)), Hx, Hy.
      right. rewrite !(assoc_L (∪)), (map_union_comm gx gy); [reflexivity|].
      apply map_disjoint_spec. intros k vx vy Hkx Hky.
      destruct (decide (k = x)) as [->|Hkx'].
      * rewrite (evalSuppliers_other _ _ _ _ _ Hy (valueSuppliersFor_not _ _ _ _ _ _ Hxy)) in Hky.
        rewrite lookup_empty in Hky. discriminate.
      * rewrite (evalSuppliers_other _ _ _ _ _ Hx (valueSuppliersFor_not _ _ _ _ _ _ Hkx')) in Hkx.
        rewrite lookup_empty in Hkx. discriminate.
  - assert (Hnd2 : NoDup l2) by (rewrite <- H12; exact Hnd).
    destruct (IH12 Hnd acc) as [[e1 [e2 [H1 H2]]]|H1];
    destruct (IH23 Hnd2 acc) as [[e2' [e3 [H2' H3]]]|H3].
    + left. eauto.
    + left. exists e1, e2. rewrite <- H3. auto.
    + left. exists e2', e3. rewrite H1. auto.
    + right. congruence.
Qed.

Lemma evalSuppliers_lookup cl l acc g k :
  evalSuppliers cl l acc = inr g ->
  (forall x vb, last (filter (fun s => s.1 = k) l) = Some (x, vb) ->
     exists v, runValueBuilder cl vb = inr v /\ g !! k = Some v) /\
  (last (filter (fun s => s.1 = k) l) = None -> g !! k = acc !! k).
Proof.
  revert acc. induction l as [|[n vb] l IH]; intros acc H; simpl in H.
  - injection H as <-. split; [intros x vb Hl; discriminate|reflexivity].
  - destruct (runValueBuilder cl vb) as [e|v] eqn:Hvb; [discriminate|].
    destruct (IH _ H) as [IHs IHn]. rewrite filter_cons.
    destruct (last (filter (fun s => s.1 = k) l)) as [[x' vb']|] eqn:Hl.
    + split; [|case_decide; [rewrite last_cons, Hl|rewrite Hl]; discriminate].
      intros x vb0 Hlast. apply (IHs x vb0).
      case_decide; [rewrite last_cons, Hl in Hlast|rewrite Hl in Hlast]; exact Hlast.
    + case_decide as Hk; simpl in Hk.
      * rewrite last_cons, Hl. subst k. split; [|discriminate].
        intros x vb0 Hlast. injection Hlast as <- <-. exists v. split; [exact Hvb|].
        rewrite IHn by reflexivity. apply lookup_insert_eq.
      * rewrite Hl. split; [discriminate|]. intros _.
        rewrite IHn by reflexivity. apply lookup_insert_ne. exact Hk.
Qed.

Lemma evalSuppliers_err cl l acc e :
  evalSuppliers cl l acc = inl e -> exists k, e = KeyError k.
Proof.
  revert acc. induction l as [|[n vb] l IH]; intros acc H; simpl in H; [discriminate|].
  destruct (runValueBuilder cl vb) as [e'|v] eqn:Hvb.
  - injection H as <-. destruct vb; simpl in Hvb; try discriminate.
    destruct (cl !! name); [discriminate|]. injection Hvb as <-. eauto.
  - eapply IH. exact H.
Qed.

Lemma filter_group sc sf ps fs x k :
  filter (fun s => s.1 = k) (valueSuppliersFor sc sf ps fs x) =
  if decide (x = k) then valueSuppliersFor sc sf ps fs x else [].
Proof.
  pose proof (valueSuppliersFor_names sc sf ps fs x) as Hall.
  induction Hall as [|s l Hs Hall IH]; [case_decide; reflexivity|].
  rewrite filter_cons, IH. case_decide as Hxk; case_decide as Hsk; congruence.
Qed.

Lemma filter_suppliers sc sf ps fs order k :
  NoDup order ->
  filter (fun s => s.1 = k) (order ≫= valueSuppliersFor sc sf ps fs) =
  if decide (k ∈ order) then valueSuppliersFor sc sf ps fs k else [].
Proof.
  induction 1 as [|x l Hx Hnd IH]; [case_decide as Hin; [apply not_elem_of_nil in Hin; contradiction|reflexivity]|].
  rewrite bind_cons, filter_app, filter_group, IH.
  repeat case_decide; subst; rewrite ?app_nil_r; try reflexivity; exfalso; set_solver.
Qed.

(** X6: the builder that [_buildStateBuilder] returns gives the same
    keyword arguments whatever order the set of parameters is iterated
    in, or raises in both orders; positional arguments are ignored. *)
Theorem state_builder_order_independent sc sf ps f o1 o2 cl args1 args2 kwargs :
  o1 ≡ₚ o2 -> NoDup o1 ->
  let r1 := _buildStateBuilder sc sf ps f o1 cl args1 kwargs in
  let r2 := _buildStateBuilder sc sf ps f o2 cl args2 kwargs in
  (exists e1 e2, r1 = inl e1 /\ r2 = inl e2) \/ r1 = r2.
Proof.
  intros Hp Hnd. cbv zeta. unfold _buildStateBuilder, _stateBuilder, _valueSuppliers.
  destruct (suppliers_order_independent sc sf ps (f_params f) cl o1 o2 Hp Hnd ∅)
    as [[e1 [e2 [H1 H2]]]|H]; cbv zeta in *.
  - rewrite H1, H2. left. eauto.
  - rewrite H. right. reflexivity.
Qed.

(** X7: when the builder succeeds, a parameter with suppliers gets the
    value of its last supplier (sibling, then core, then instance) and
    is not among the call's keywords; every other name has the value the
    call's keywords give it. *)
Theorem state_builder_arguments sc sf ps f order cl args kwargs kw n :
  NoDup order ->
  _buildStateBuilder sc sf ps f order cl args kwargs = inr kw ->
  (n ∈ order -> forall x vb, last (valueSuppliersFor sc sf ps (f_params f) n) = Some (x, vb) ->
     kwargs !! n = None /\ exists v, runValueBuilder cl vb = inr v /\ kw !! n = Some v) /\
  ((n ∉ order \/ valueSuppliersFor sc sf ps (f_params f) n = []) -> kw !! n = kwargs !! n).
Proof.
  intros Hnd H. unfold _buildStateBuilder, _stateBuilder, _valueSuppliers in H.
  destruct (evalSuppliers cl _ ∅) as [e|extra] eqn:He; [discriminate|].
  case_decide as Hdisj; [|discriminate]. injection H as <-.
  destruct (evalSuppliers_lookup _ _ _ _ n He) as [Hs Hn].
  rewrite (filter_suppliers _ _ _ _ _ n Hnd) in Hs, Hn.
  rewrite lookup_union. split.
  - intros Hin x vb Hl. case_decide; [|contradiction].
    destruct (Hs x vb Hl) as [v [Hv Hext]]. split.
    + destruct (kwargs !! n) eqn:Hk; [|reflexivity]. exfalso.
      assert (n ∈ dom kwargs ∩ dom extra) as Hboth.
      { apply elem_of_intersection. split; apply elem_of_dom; eauto. }
      rewrite Hdisj in Hboth. set_solver.
    + exists v. split; [exact Hv|]. rewrite Hext. apply union_Some_l.
  - intros Hno. rewrite Hn, lookup_empty, (left_id_L None (∪)); [reflexivity|].
    case_decide as Hin; [|reflexivity].
    destruct Hno as [Hno|Hno]; [contradiction|]. rewrite Hno. reflexivity.
Qed.

(** X8: a parameter whose type names a state factory with no object
    in the cluster makes the builder raise [KeyError], even when a later
    supplier would give it a value; a parameter with a supplier that the
    call also passes by keyword makes it raise [TypeError], unless a
    [KeyError] comes first. *)
Theorem state_builder_errors sc sf ps f order cl args kwargs n p :
  n ∈ order -> find_param n (f_params f) = Some p ->
  (is_Some (sf !! ty_name (p_ann p)) -> cl !! ty_name (p_ann p) = None ->
   exists k, _buildStateBuilder sc sf ps f order cl args kwargs = inl (KeyError k)) /\
  (valueSuppliersFor sc sf ps (f_params f) n <> [] -> is_Some (kwargs !! n) ->
   _buildStateBuilder sc sf ps f order cl args kwargs = inl TypeError \/
   exists k, _buildStateBuilder sc sf ps f order cl args kwargs = inl (KeyError k)).
Proof.
  intros Hin Hp. unfold _buildStateBuilder, _stateBuilder, _valueSuppliers.
  apply list_elem_of_split in Hin as (o1 & o2 & ->).
  rewrite bind_app, bind_cons, !evalSuppliers_app. split.
  - intros Hsib Hmiss.
    destruct (evalSuppliers cl (o1 ≫= _) ∅) as [e|a] eqn:H1.
    + destruct (evalSuppliers_err _ _ _ _ H1) as [k ->]. eauto.
    + unfold valueSuppliersFor. rewrite Hp. cbv zeta.
      rewrite decide_True by exact Hsib. simpl. rewrite Hmiss. eauto.
  - intros Hne [v Hv].
    destruct (evalSuppliers cl (o1 ≫= _) ∅) as [e|a] eqn:H1.
    { destruct (evalSuppliers_err _ _ _ _ H1) as [k ->]. eauto. }
    cbv beta iota. rewrite ?evalSuppliers_app.
    destruct (evalSuppliers cl (valueSuppliersFor sc sf ps (f_params f) n) a) as [e|b] eqn:H2.
    { destruct (evalSuppliers_err _ _ _ _ H2) as [k ->]. eauto. }
    cbv beta iota. rewrite ?evalSuppliers_app.
    destruct (evalSuppliers cl (o2 ≫= _) b) as [e|c] eqn:H3.
    { destruct (evalSuppliers_err _ _ _ _ H3) as [k ->]. eauto. }
    cbv beta iota. rewrite ?evalSuppliers_app.
    left. rewrite decide_False; [reflexivity|].
    destruct (last (valueSuppliersFor sc sf ps (f_params f) n)) as [[x vb]|] eqn:Hl.
    2:{ apply last_None in Hl. contradiction. }
    destruct (evalSuppliers_lookup _ _ _ _ n H2) as [Hs _].
    rewrite filter_group, decide_True in Hs by reflexivity.
    destruct (Hs x vb Hl) as [w [_ Hb]].
    assert (Hc : is_Some (c !! n)).
    { destruct (decide (n ∈ (o2 ≫= valueSuppliersFor sc sf ps (f_params f)).*1)) as [Hin2|Hin2].
      - apply list_elem_of_fmap in Hin2 as [[n' vb'] [Hn' Hin2]]. simpl in Hn'. subst n'.
        destruct (evalSuppliers_lookup _ _ _ _ n H3) as [Hs3 _].
        destruct (last (filter (fun s => s.1 = n) (o2 ≫= valueSuppliersFor sc sf ps (f_params f))))
          as [[x3 vb3]|] eqn:Hl3.
        + destruct (Hs3 x3 vb3 eq_refl) as [w3 [_ ->]]. eauto.
        + apply last_None in Hl3.
          assert (Hf : (n, vb') ∈ filter (fun s => s.1 = n) (o2 ≫= valueSuppliersFor sc sf ps (f_params f))).
          { apply list_elem_of_filter. split; [reflexivity|exact Hin2]. }
          rewrite Hl3 in Hf. apply not_elem_of_nil in Hf. contradiction.
      - rewrite (evalSuppliers_other _ _ _ _ _ H3 Hin2), Hb. eauto. }
    destruct Hc as [w' Hw']. intros Hdisj.
    assert (n ∈ dom kwargs ∩ dom c) as Hboth.
    { apply elem_of_intersection. split; apply elem_of_dom; eauto. }
    rewrite Hdisj in Hboth. set_solver.
Qed.


(** [start] is on both protocols and comes from the private one;
    [status] is a common method, and so is [register], which only a
    private protocol declares: [getattr] finds it on the public
    protocol's metaclass. *)
Lemma class_namespace_lookup_witness :
  exists d, classNamespace ["__init__"] ["register"; "mro"] spSwitch [spRegister] namedCommons = inr d /\
  d !! "start" = Some (ClsInput "Private" "start") /\
  d !! "status" = Some (ClsCommon "statusImpl" false) /\
  d !! "register" = Some (ClsCommon "registerImpl" true).
Proof.
  pose (d := match classNamespace ["__init__"] ["register"; "mro"] spSwitch [spRegister] namedCommons
             with inr d => d | inl _ => ∅ end).
  assert (H : classNamespace ["__init__"] ["register"; "mro"] spSwitch [spRegister] namedCommons = inr d)
    by (vm_compute; reflexivity).
  exists d. split; [exact H|]. split_and!.
  - rewrite (class_namespace_lookup _ _ _ _ _ _ "start" H). vm_compute. reflexivity.
  - rewrite (class_namespace_lookup _ _ _ _ _ _ "status" H). vm_compute. reflexivity.
  - rewrite (class_namespace_lookup _ _ _ _ _ _ "register" H). vm_compute. reflexivity.
Defined.

(** A common method for the private input [reset], which neither the
    public protocol nor its metaclass has. *)
Lemma common_method_needs_public_input_witness :
  Forall (fun e => e.1 ∈ pr_dir spSwitch ++ ["register"; "mro"]) [("status", ("statusImpl", false))] /\
  ("reset" ∉ pr_dir spSwitch ++ ["register"; "mro"]) /\
  classNamespace ["__init__"] ["register"; "mro"] spSwitch [spPrivate]
    [("status", ("statusImpl", false)); ("reset", ("resetImpl", true))] = inl (AttributeError "reset").
Proof.
  assert (Hpre : Forall (fun e => e.1 ∈ pr_dir spSwitch ++ ["register"; "mro"])
                   [("status", ("statusImpl", false))]).
  { apply Forall_singleton. simpl. apply list_elem_of_In. simpl. tauto. }
  assert (Hn : ("reset" ∉ pr_dir spSwitch ++ ["register"; "mro"])).
  { decide_by_eval. }
  split; [exact Hpre|]. split; [exact Hn|].
  apply (proj1 (common_method_needs_public_input ["__init__"] ["register"; "mro"] spSwitch [spPrivate]
                  [("status", ("statusImpl", false))] "reset" ("resetImpl", true) [] Hpre) Hn).
Defined.


(** Two iteration orders of [{core, report}]. *)
Lemma state_builder_order_independent_witness :
  ["core"; "report"] ≡ₚ ["report"; "core"] /\ NoDup ["core"; "report"] /\
  _buildStateBuilder Switch.tyCore Needy.factories Switch.protocols activeNeeds ["core"; "report"]
    {[ "Report" := 7 ]} [] {[ "speed" := VInt 3 ]} =
  _buildStateBuilder Switch.tyCore Needy.factories Switch.protocols activeNeeds ["report"; "core"]
    {[ "Report" := 7 ]} [VInt 1] {[ "speed" := VInt 3 ]}.
Proof.
  assert (Hp : ["core"; "report"] ≡ₚ ["report"; "core"]) by constructor.
  assert (Hnd : NoDup ["core"; "report"]) by (decide_by_eval).
  split; [exact Hp|]. split; [exact Hnd|].
  destruct (state_builder_order_independent Switch.tyCore Needy.factories Switch.protocols activeNeeds
              _ _ {[ "Report" := 7 ]} [] [VInt 1] {[ "speed" := VInt 3 ]} Hp Hnd)
    as [[e1 [e2 [H1 _]]]|H].
  - vm_compute in H1. discriminate.
  - exact H.
Defined.

(** [report] comes from the cluster, [speed] from the keywords. *)
Lemma state_builder_arguments_witness :
  NoDup ["core"; "report"] /\
  exists kw, _buildStateBuilder Switch.tyCore Needy.factories Switch.protocols activeNeeds ["core"; "report"]
    {[ "Report" := 7 ]} [] {[ "speed" := VInt 3 ]} = inr kw /\
  kw !! "report" = Some (VRef 7) /\ kw !! "speed" = Some (VInt 3).
Proof.
  assert (Hnd : NoDup ["core"; "report"]) by (decide_by_eval).
  pose (kw := match _buildStateBuilder Switch.tyCore Needy.factories Switch.protocols activeNeeds
                      ["core"; "report"] {[ "Report" := 7 ]} [] {[ "speed" := VInt 3 ]}
              with inr kw => kw | inl _ => ∅ end).
  assert (H : _buildStateBuilder Switch.tyCore Needy.factories Switch.protocols activeNeeds ["core"; "report"]
    {[ "Report" := 7 ]} [] {[ "speed" := VInt 3 ]} = inr kw) by (vm_compute; reflexivity).
  split; [exact Hnd|]. exists kw. split; [exact H|]. split.
  - destruct (state_builder_arguments _ _ _ _ _ _ _ _ _ "report" Hnd H) as [Hs _].
    destruct (Hs ltac:(decide_by_eval) "report"
                (GetOtherState "Report") ltac:(vm_compute; reflexivity)) as [_ [v [Hv Hk]]].
    rewrite Hk. vm_compute in Hv. congruence.
  - destruct (state_builder_arguments _ _ _ _ _ _ _ _ _ "speed" Hnd H) as [_ Hn].
    rewrite Hn; [reflexivity|]. left. decide_by_eval.
Defined.

(** No [Report] object: [KeyError]. *)
Lemma state_builder_errors_witness :
  "report" ∈ ["core"; "report"] /\
  find_param "report" (f_params activeNeeds) = Some (Param "report" Needy.tyReport false) /\
  exists k, _buildStateBuilder Switch.tyCore Needy.factories Switch.protocols activeNeeds ["core"; "report"]
    ∅ [] ∅ = inl (KeyError k).
Proof.
  assert (Hin : "report" ∈ ["core"; "report"]) by (decide_by_eval).
  assert (Hp : find_param "report" (f_params activeNeeds) = Some (Param "report" Needy.tyReport false))
    by reflexivity.
  split; [exact Hin|]. split; [exact Hp|].
  apply (proj1 (state_builder_errors Switch.tyCore Needy.factories Switch.protocols activeNeeds
                  ["core"; "report"] ∅ [] ∅ "report" _ Hin Hp)).
  - vm_compute. eexists. reflexivity.
  - reflexivity.
Defined.

Lemma split_dot_nonempty s : split_dot s <> [].
Proof.
  destruct s as [|c s]; simpl; [discriminate|].
  case_decide; [discriminate|]. destruct (split_dot s); discriminate.
Qed.

Lemma append_cons c (a b : string) : String c a +:+ b = String c (a +:+ b).
Proof. reflexivity. Qed.

Lemma append_nil (b : string) : EmptyString +:+ b = b.
Proof. reflexivity. Qed.

Lemma split_dot_app a b :
  split_dot (a +:+ "." +:+ b) = split_dot a ++ split_dot b.
Proof.
  induction a as [|c a IH].
  - simpl. try (rewrite decide_True by reflexivity). reflexivity.
  - change (split_dot (String c (a +:+ "." +:+ b)) = split_dot (String c a) ++ split_dot b).
    cbn [split_dot]. rewrite IH. case_decide; [reflexivity|].
    destruct (split_dot a) as [|r rs] eqn:Ha; [exfalso; apply (split_dot_nonempty a Ha)|].
    reflexivity.
Qed.


Lemma string_app_assoc (a b c : string) : (a +:+ b) +:+ c = a +:+ (b +:+ c).
Proof. induction a as [|ch a IH]; [reflexivity|]. rewrite !append_cons, IH. reflexivity. Qed.

Lemma joinDot_prefix p x rs : joinDot (p +:+ x) rs = p +:+ joinDot x rs.
Proof.
  revert x. induction rs as [|r rs IH]; intros x; [reflexivity|].
  unfold joinDot in *. simpl. rewrite <- IH, string_app_assoc. reflexivity.
Qed.

Lemma joinDot_split s c cs : split_dot s = c :: cs -> joinDot c cs = s.
Proof.
  revert c cs. induction s as [|ch s IH]; intros c cs H; simpl in H.
  - injection H as <- <-. reflexivity.
  - case_decide as Hd.
    + injection H as <- <-. destruct (split_dot s) as [|r rs] eqn:Hs.
      { exfalso. apply (split_dot_nonempty s Hs). }
      unfold joinDot. simpl. subst ch.
      change (joinDot ("." +:+ r) rs = String dotChar s).
      rewrite joinDot_prefix, (IH r rs eq_refl). reflexivity.
    + destruct (split_dot s) as [|r rs] eqn:Hs.
      { exfalso. apply (split_dot_nonempty s Hs). }
      injection H as <- <-.
      change (joinDot (String ch EmptyString +:+ r) rs = String ch s).
      rewrite joinDot_prefix, (IH r rs eq_refl). reflexivity.
Qed.

Lemma joinDot_app x l1 l2 : joinDot x (l1 ++ l2) = joinDot (joinDot x l1) l2.
Proof. unfold joinDot. apply foldl_app. Qed.

Lemma joinDot_cons x r rs : joinDot x (r :: rs) = x +:+ "." +:+ joinDot r rs.
Proof.
  unfold joinDot at 1. simpl. fold (joinDot (x +:+ "." +:+ r) rs).
  rewrite <- string_app_assoc, joinDot_prefix. rewrite string_app_assoc. reflexivity.
Qed.

Lemma rsplit_last_child p base :
  split_dot base = [base] -> rsplit_last (p +:+ "." +:+ base) = base.
Proof.
  intros Hb. unfold rsplit_last. rewrite split_dot_app, Hb, last_snoc. reflexivity.
Qed.

Lemma descendModules_names sM m cs m' rest :
  (forall m c m', sM m c = Some m' -> w_name m' = w_name m +:+ "." +:+ c) ->
  descendModules sM m cs = (m', rest) ->
  exists consumed, cs = consumed ++ rest /\ w_name m' = joinDot (w_name m) consumed.
Proof.
  intros Hsub. revert m. induction cs as [|c cs IH]; intros m H; simpl in H.
  - injection H as <- <-. exists []. split; reflexivity.
  - destruct (sM m c) as [m1|] eqn:Hm.
    + destruct (IH m1 H) as [consumed [Hcs Hn]]. exists (c :: consumed).
      split; [rewrite Hcs; reflexivity|]. rewrite Hn, (Hsub _ _ _ Hm). reflexivity.
    + injection H as <- <-. exists []. split; reflexivity.
Qed.

Section Naming.

Variable iA : wrapper -> list wrapper.
Hypothesis Hattr : forall w child, child ∈ iA w ->
  exists base, split_dot base = [base] /\ w_name child = w_name w +:+ "." +:+ base.

Lemma find_child a c child :
  find (fun child => bool_decide (rsplit_last (w_name child) = c)) (iA a) = Some child ->
  w_name child = w_name a +:+ "." +:+ c.
Proof.
  intros H. apply find_some in H as [Hin Hc].
  apply bool_decide_eq_true in Hc. apply list_elem_of_In in Hin.
  destruct (Hattr _ _ Hin) as [base [Hb Hn]].
  rewrite Hn in Hc |- *. rewrite rsplit_last_child in Hc by exact Hb. subst base. reflexivity.
Qed.

Lemma findAttributes_names a cs w :
  findAttributes iA a cs = inr w -> w_name w = joinDot (w_name a) cs.
Proof.
  revert a. induction cs as [|c cs IH]; intros a H; simpl in H.
  - injection H as <-. reflexivity.
  - destruct (find _ (iA a)) as [child|] eqn:Hf; [|discriminate].
    rewrite (IH _ H), (find_child _ _ _ Hf). reflexivity.
Qed.

Lemma findAttributes_error a cs e :
  findAttributes iA a cs = inl e ->
  exists pre c post msg, cs = pre ++ c :: post /\ e = NoObject msg /\
    msg = joinDot (w_name a) (pre ++ [c]).
Proof.
  revert a. induction cs as [|c cs IH]; intros a H; simpl in H; [discriminate|].
  destruct (find _ (iA a)) as [child|] eqn:Hf.
  - destruct (IH _ H) as (pre & c' & post & msg & -> & -> & Hmsg).
    exists (c :: pre), c', post, msg. split; [reflexivity|]. split; [reflexivity|].
    rewrite Hmsg, (find_child _ _ _ Hf). reflexivity.
  - injection H as <-. exists [], c, cs, (w_name a +:+ "." +:+ c). auto.
Qed.

End Naming.

Lemma split_dot_leading a : split_dot ("." +:+ a) = "" :: split_dot a.
Proof. reflexivity. Qed.

(** X9: whatever the module system, [wrapFQPN] rejects the empty name
    and any name with a leading, trailing or doubled dot with
    [InvalidFQPN]. *)
Theorem wrapFQPN_rejects_empty_components gM sM iA repr a b :
  wrapFQPN gM sM iA repr "" = inl (InvalidFQPN "FQPN was empty") /\
  (exists msg, wrapFQPN gM sM iA repr ("." +:+ a) = inl (InvalidFQPN msg)) /\
  (exists msg, wrapFQPN gM sM iA repr (a +:+ ".") = inl (InvalidFQPN msg)) /\
  (exists msg, wrapFQPN gM sM iA repr (a +:+ ".." +:+ b) = inl (InvalidFQPN msg)).
Proof.
  split; [reflexivity|]. unfold wrapFQPN.
  split; [|split].
  - rewrite decide_False by discriminate. rewrite split_dot_leading.
    rewrite decide_True by (apply elem_of_cons; left; reflexivity). eauto.
  - rewrite decide_False by (destruct a; discriminate).
    replace (a +:+ ".") with (a +:+ "." +:+ EmptyString) by reflexivity.
    rewrite split_dot_app. rewrite decide_True; [eauto|].
    apply elem_of_app. right. simpl. apply elem_of_cons. left. reflexivity.
  - rewrite decide_False by (destruct a; discriminate).
    replace (a +:+ ".." +:+ b) with (a +:+ "." +:+ ("." +:+ b)) by reflexivity.
    rewrite split_dot_app, split_dot_leading. rewrite decide_True; [eauto|].
    apply elem_of_app. right. apply elem_of_cons. left. reflexivity.
Qed.

(** X10: when the first component is not a module, [wrapFQPN] raises
    [NoModule] with that component, whatever follows it. *)
Theorem wrapFQPN_missing_module gM sM iA repr c rest :
  split_dot c = [c] -> c <> EmptyString -> gM c = None ->
  wrapFQPN gM sM iA repr c = inl (NoModule c) /\
  (EmptyString ∉ split_dot rest -> wrapFQPN gM sM iA repr (c +:+ "." +:+ rest) = inl (NoModule c)).
Proof.
  intros Hc Hne Hm. unfold wrapFQPN. split.
  - rewrite decide_False by exact Hne. rewrite Hc.
    rewrite decide_False; [rewrite Hm; reflexivity|].
    intros Hin. apply list_elem_of_singleton in Hin. congruence.
  - intros Hrest. rewrite decide_False by (destruct c; [contradiction|discriminate]).
    rewrite split_dot_app, Hc. simpl.
    rewrite decide_False; [rewrite Hm; reflexivity|].
    intros Hin. apply elem_of_cons in Hin as [Hin|Hin]; [congruence|contradiction].
Qed.

(** X11: when modules, submodules and attributes are named by their
    dotted paths, the wrapper [wrapFQPN] returns is named by the given
    name, and a [NoObject] message is a dotted prefix of the name: the
    part found, then the first missing component. *)
Theorem wrapFQPN_names_follow_path gM sM iA repr fqpn :
  (forall c m, gM c = Some m -> w_name m = c) ->
  (forall m c m', sM m c = Some m' -> w_name m' = w_name m +:+ "." +:+ c) ->
  (forall w child, child ∈ iA w ->
     exists base, split_dot base = [base] /\ w_name child = w_name w +:+ "." +:+ base) ->
  (forall w, wrapFQPN gM sM iA repr fqpn = inr w -> w_name w = fqpn) /\
  (forall msg, wrapFQPN gM sM iA repr fqpn = inl (NoObject msg) ->
     fqpn = msg \/ exists rest, fqpn = msg +:+ "." +:+ rest).
Proof.
  intros Hget Hsub Hattr. unfold wrapFQPN.
  destruct (decide (fqpn = EmptyString)) as [_|Hne]; [split; intros; discriminate|].
  destruct (decide (EmptyString ∈ split_dot fqpn)) as [_|Hnoe]; [split; intros; discriminate|].
  destruct (split_dot fqpn) as [|c cs] eqn:Hs; [exfalso; apply (split_dot_nonempty fqpn Hs)|].
  destruct (gM c) as [m|] eqn:Hm; [|split; intros; discriminate].
  pose proof (joinDot_split _ _ _ Hs) as Hj.
  destruct (descendModules sM m cs) as [m' rest] eqn:Hd.
  destruct (descendModules_names _ _ _ _ _ Hsub Hd) as [consumed [Hcs Hn]].
  rewrite (Hget _ _ Hm) in Hn.
  destruct rest as [|r rs].
  - split; intros; [|discriminate]. injection H as <-.
    rewrite Hn, <- Hj, Hcs, app_nil_r. reflexivity.
  - split.
    + intros w Hw. rewrite (findAttributes_names _ Hattr _ _ _ Hw), Hn, <- joinDot_app, <- Hcs.
      exact Hj.
    + intros msg Hw.
      destruct (findAttributes_error _ Hattr _ _ _ Hw) as (pre & c' & post & msg' & Hr & He & Hmsg).
      injection He as <-. rewrite Hn, <- joinDot_app in Hmsg.
      rewrite <- Hj, Hcs, Hr.
      replace (consumed ++ pre ++ c' :: post) with ((consumed ++ pre ++ [c']) ++ post)
        by (rewrite <- !app_assoc; reflexivity).
      rewrite joinDot_app, <- Hmsg.
      destruct post as [|p0 post]; [left; reflexivity|].
      right. exists (joinDot p0 post). apply joinDot_cons.
Qed.

Section Loop.
Context {pyvalue : Type} `{EqDecision pyvalue}.
Variable load : wrapper -> pyvalue.
Variable isMachine isclass : pyvalue -> bool.
Variable getmoduleName : pyvalue -> option string.
Variable iterAttributesOf iterModules : wrapper -> list wrapper.

Lemma fresh_weaken (out : list (string * pyvalue)) v visited :
  Forall (fun p => isMachine p.2 = true /\ p.2 ∉ v :: visited) out ->
  Forall (fun p => isMachine p.2 = true /\ p.2 ∉ visited) out.
Proof.
  intros Hall. apply (Forall_impl _ _ _ Hall). intros p [Hm Hn]. split; [exact Hm|].
  intros Hin. apply Hn. apply elem_of_cons. right. exact Hin.
Qed.

Lemma findMachinesLoop_fresh fuel queue visited :
  NoDup (findMachinesLoop load isMachine isclass getmoduleName iterAttributesOf iterModules
           fuel queue visited).*2 /\
  Forall (fun p => isMachine p.2 = true /\ p.2 ∉ visited)
    (findMachinesLoop load isMachine isclass getmoduleName iterAttributesOf iterModules
       fuel queue visited).
Proof.
  revert queue visited. induction fuel as [|fuel IH]; intros queue visited; simpl.
  - split; constructor.
  - destruct (last queue) as [attr|]; [|split; constructor]. cbv zeta.
    destruct (isMachine (load attr) && bool_decide (load attr ∉ visited)) eqn:H1.
    + apply andb_prop in H1 as [Hm Hv]. apply bool_decide_eq_true in Hv.
      destruct (IH (removelast queue) (load attr :: visited)) as [Hnd Hall].
      split.
      * simpl. apply NoDup_cons. split; [|exact Hnd].
        intros Hin. apply list_elem_of_fmap in Hin as [p [Hp Hin]].
        rewrite Forall_forall in Hall. destruct (Hall p Hin) as [_ Hn]. apply Hn.
        rewrite <- Hp. apply elem_of_cons. left. reflexivity.
      * constructor; [split; assumption|]. apply (fresh_weaken _ (load attr)). exact Hall.
    + destruct (isclass (load attr) && isOriginalLocation load getmoduleName attr
                && bool_decide (load attr ∉ visited)).
      { destruct (IH (reverse (iterAttributesOf attr) ++ removelast queue) (load attr :: visited))
          as [Hnd Hall]. split; [exact Hnd|]. apply (fresh_weaken _ (load attr)). exact Hall. }
      destruct (isPythonModule attr && bool_decide (load attr ∉ visited)).
      { destruct (IH (reverse (iterModules attr) ++ reverse (iterAttributesOf attr) ++ removelast queue)
                     (load attr :: visited)) as [Hnd Hall].
        split; [exact Hnd|]. apply (fresh_weaken _ (load attr)). exact Hall. }
      apply IH.
Qed.

Lemma findMachinesLoop_more_fuel fuel queue visited :
  findMachinesLoop load isMachine isclass getmoduleName iterAttributesOf iterModules fuel queue visited
  `prefix_of`
  findMachinesLoop load isMachine isclass getmoduleName iterAttributesOf iterModules (S fuel) queue visited.
Proof.
  revert queue visited. induction fuel as [|fuel IH]; intros queue visited.
  - apply prefix_nil.
  - cbn [findMachinesLoop]. destruct (last queue) as [attr|]; [|reflexivity]. cbv zeta.
    destruct (_ && _); [apply prefix_cons, IH|].
    destruct (_ && _ && _); [apply IH|].
    destruct (_ && _); apply IH.
Qed.

(** X12: [findMachinesViaWrapper] yields only machines and never the
    same machine twice, and running it longer only extends what it has
    yielded. *)
Theorem discovery_yields_each_machine_once fuel within :
  let out := findMachinesViaWrapper load isMachine isclass getmoduleName iterAttributesOf iterModules
               fuel within in
  NoDup out.*2 /\ Forall (fun p => isMachine p.2 = true) out /\
  out `prefix_of` findMachinesViaWrapper load isMachine isclass getmoduleName iterAttributesOf
                    iterModules (S fuel) within.
Proof.
  cbv zeta. unfold findMachinesViaWrapper.
  destruct (findMachinesLoop_fresh fuel [within] []) as [Hnd Hall].
  split; [exact Hnd|]. split; [|apply findMachinesLoop_more_fuel].
  apply (Forall_impl _ _ _ Hall). intros p [Hm _]. exact Hm.
Qed.
End Loop.



(** [twisted] is not in the tree. *)
Lemma wrapFQPN_missing_module_witness :
  split_dot "twisted" = ["twisted"] /\ "twisted" <> EmptyString /\ Tree.getModule "twisted" = None /\
  wrapFQPN Tree.getModule Tree.subModule Tree.iterAttributes Tree.pyrepr "twisted.python.modules"
    = inl (NoModule "twisted").
Proof.
  assert (H1 : split_dot "twisted" = ["twisted"]) by reflexivity.
  assert (H2 : "twisted" <> EmptyString) by discriminate.
  assert (H3 : Tree.getModule "twisted" = None) by reflexivity.
  split; [exact H1|]. split; [exact H2|]. split; [exact H3|].
  apply (proj2 (wrapFQPN_missing_module Tree.getModule Tree.subModule Tree.iterAttributes Tree.pyrepr
                  "twisted" "python.modules" H1 H2 H3)).
  decide_by_eval.
Defined.

(** The tree is named by dotted paths. *)
Lemma wrapFQPN_names_follow_path_witness :
  (forall c m, Tree.getModule c = Some m -> w_name m = c) /\
  (forall m c m', Tree.subModule m c = Some m' -> w_name m' = w_name m +:+ "." +:+ c) /\
  (forall w child, child ∈ Tree.iterAttributes w ->
     exists base, split_dot base = [base] /\ w_name child = w_name w +:+ "." +:+ base) /\
  wrapFQPN Tree.getModule Tree.subModule Tree.iterAttributes Tree.pyrepr "automat._typical.Missing"
    = inl (NoObject "automat._typical.Missing") /\
  forall w, wrapFQPN Tree.getModule Tree.subModule Tree.iterAttributes Tree.pyrepr
              "automat._typical.TypicalBuilder" = inr w ->
            w_name w = "automat._typical.TypicalBuilder".
Proof.
  assert (Hg : forall c m, Tree.getModule c = Some m -> w_name m = c).
  { intros c m. unfold Tree.getModule. case_decide; [|discriminate].
    intros Hm. injection Hm as <-. subst c. reflexivity. }
  assert (Hs : forall m c m', Tree.subModule m c = Some m' -> w_name m' = w_name m +:+ "." +:+ c).
  { intros m c m'. unfold Tree.subModule. case_decide as Hmc; [|discriminate].
    destruct Hmc as [-> ->]. intros Hm. injection Hm as <-. reflexivity. }
  assert (Ha : forall w child, child ∈ Tree.iterAttributes w ->
     exists base, split_dot base = [base] /\ w_name child = w_name w +:+ "." +:+ base).
  { intros w child. unfold Tree.iterAttributes. case_decide as Hw.
    - intros Hin. apply list_elem_of_singleton in Hin. subst w child.
      exists "TypicalBuilder". split; reflexivity.
    - intros Hin. apply not_elem_of_nil in Hin. contradiction. }
  split; [exact Hg|]. split; [exact Hs|]. split; [exact Ha|]. split.
  - vm_compute. reflexivity.
  - apply (proj1 (wrapFQPN_names_follow_path Tree.getModule Tree.subModule Tree.iterAttributes Tree.pyrepr
                    "automat._typical.TypicalBuilder" Hg Hs Ha)).
Defined.
